(** * acyl: pkg/config — the delimiter-encoded configuration parsers

    A shallow embedding of [pkg/config/config.go]: the four [K8sConfig]
    parsers ([ProcessPrivilegedRepos], [ProcessGroupBindings],
    [ProcessLabels], [ProcessSecretInjections]) and [AminoConfig.Parse].

    Go strings are byte sequences: they are [string] (lists of [ascii]).
    Go maps are [gmap]s; a map field is an [option] of one, [None] being
    the nil map that a zero-valued struct holds.  A method with a
    pointer receiver that returns [error] becomes a function from the
    receiver to the updated receiver and an [option error], [None]
    being Go's [nil] error. *)

From Stdlib Require Import Ascii.
From Stdlib Require String.
From stdpp Require Import base option list strings gmap fin_maps.

Local Open Scope char_scope.
Local Open Scope stdpp_scope.

(** ** The [strings] package, as far as the parsers use it

    Every call in [config.go] is [strings.Split(s, sep)] with a one-byte
    literal separator, so the separator is an [ascii]. *)
Module strings.

(** [strings.IndexByte]: offset of the first [c] in [s]; Go's [-1] is
    [None]. *)
Fixpoint Index (s : string) (c : ascii) : option nat :=
  match s with
  | EmptyString => None
  | String a s' => if decide (a = c) then Some 0 else S <$> Index s' c
  end.

(** [strings.Count] for a one-byte separator. *)
Fixpoint Count (s : string) (c : ascii) : nat :=
  match s with
  | EmptyString => 0
  | String a s' => (if decide (a = c) then 1 else 0) + Count s' c
  end.

(** The slice expressions [s[:m]] and [s[m:]]. *)
Fixpoint slice_to (m : nat) (s : string) : string :=
  match m, s with
  | S m', String a s' => String a (slice_to m' s')
  | _, _ => EmptyString
  end.

Fixpoint slice_from (m : nat) (s : string) : string :=
  match m, s with
  | S m', String _ s' => slice_from m' s'
  | _, _ => s
  end.

(** The loop of [genSplit]: at most [n] cuts, each at the first
    separator of what is left; the rest of the string is the last
    element.
<<
    for i < n {
      m := Index(s, sep)
      if m < 0 { break }
      a[i] = s[:m]
      s = s[m+len(sep):]
      i++
    }
    a[i] = s
    return a[:i+1]
>> *)
Fixpoint genSplit (n : nat) (s : string) (sep : ascii) : list string :=
  match n with
  | 0 => [s]
  | S n' =>
      match Index s sep with
      | None => [s]
      | Some m => slice_to m s :: genSplit n' (slice_from (m + 1) s) sep
      end
  end.

(** [strings.Split(s, sep)]: [genSplit] with [n = Count(s, sep) + 1]
    slots, hence [Count(s, sep)] cuts. *)
Definition Split (s : string) (sep : ascii) : list string :=
  genSplit (Count s sep) s sep.

(** [strings.Join(elems, sep)]; the parsers never call it, it states
    what a separated list is. *)
Fixpoint Join (elems : list string) (sep : ascii) : string :=
  match elems with
  | [] => EmptyString
  | [e] => e
  | e :: es => e +:+ String sep (Join es sep)
  end.

(** [c] does not occur in [s]. *)
Definition free_of (c : ascii) (s : string) : Prop := Count s c = 0.

Global Instance free_of_dec c s : Decision (free_of c s).
Proof. unfold free_of. apply _. Defined.

End strings.

Import strings.

(** ** Package [config] *)
Module config.

(** Go's [error] values.  [External] is an error made outside this
    package (by a [SecretFetcher] or by [encoding/json]); every other
    constructor is one [fmt.Errorf] or [errors.Wrapf] call of
    [config.go] and carries the arguments of its format string. *)
Inductive error : Type :=
| External (msg : string)
  (* "malformed repo at offset %v: %v", i, pr *)
| MalformedRepo (i : nat) (pr : string)
  (* "malformed group binding at offset %v: %v", i, gb *)
| MalformedGroupBinding (i : nat) (gb : string)
  (* "empty binding at offset %v: %v", i, gb *)
| EmptyBinding (i : nat) (gb : string)
  (* "at least one label should be provided" *)
| NoLabel
  (* "malformed label %s in %s", labelStr, labelsStr *)
| MalformedLabel (labelStr labelsStr : string)
  (* "malformed secret injection at offset %v: %v", i, sstr *)
| MalformedSecretInjection (i : nat) (sstr : string)
  (* "empty secret injection at offset %v: %v", i, sstr *)
| EmptySecretInjection (i : nat) (sstr : string)
  (* errors.Wrapf(err, "error fetching secret for id: %v", ssl[1]) *)
| FetchingSecret (err : error) (id : string)
  (* errors.Wrapf(err, "error unmarshaling secret for id: %v", ssl[1]) *)
| UnmarshalingSecret (err : error) (id : string)
  (* "error unmarshaling HelmChartToRepo: %v", err *)
| UnmarshalingHelmChartToRepo (err : error)
  (* "error unmarshaling AminoDeploymentToRepo: %v", err *)
| UnmarshalingAminoDeploymentToRepo (err : error)
  (* "error unmarshaling AminoJobToRepo: %v", err *)
| UnmarshalingAminoJobToRepo (err : error).

(** [K8sSecret] models a kubernetes secret. *)
Record K8sSecret : Type := {
  Data : option (gmap string (list Byte.byte));
  Type_ : string
}.

(** [K8sSecret{}] *)
Definition K8sSecret_zero : K8sSecret :=
  {| Data := None; Type_ := EmptyString |}.

Record K8sConfig : Type := {
  GroupBindings : option (gmap string string);
  PrivilegedRepoWhitelist : list string;
  SecretInjections : option (gmap string K8sSecret);
  Labels : option (gmap string string)
}.

(** [var k8scfg K8sConfig] *)
Definition K8sConfig_zero : K8sConfig :=
  {| GroupBindings := None; PrivilegedRepoWhitelist := [];
     SecretInjections := None; Labels := None |}.

Definition set_GroupBindings v (kc : K8sConfig) : K8sConfig :=
  {| GroupBindings := v;
     PrivilegedRepoWhitelist := PrivilegedRepoWhitelist kc;
     SecretInjections := SecretInjections kc; Labels := Labels kc |}.

Definition set_PrivilegedRepoWhitelist v (kc : K8sConfig) : K8sConfig :=
  {| GroupBindings := GroupBindings kc; PrivilegedRepoWhitelist := v;
     SecretInjections := SecretInjections kc; Labels := Labels kc |}.

Definition set_SecretInjections v (kc : K8sConfig) : K8sConfig :=
  {| GroupBindings := GroupBindings kc;
     PrivilegedRepoWhitelist := PrivilegedRepoWhitelist kc;
     SecretInjections := v; Labels := Labels kc |}.

Definition set_Labels v (kc : K8sConfig) : K8sConfig :=
  {| GroupBindings := GroupBindings kc;
     PrivilegedRepoWhitelist := PrivilegedRepoWhitelist kc;
     SecretInjections := SecretInjections kc; Labels := v |}.

(** *** [ProcessPrivilegedRepos]

    The [range] loop over the whitelist, from offset [i] on: the first
    token whose split on [/] has not two parts ends it. *)
Fixpoint PrivilegedRepos_range (i : nat) (prs : list string) : option error :=
  match prs with
  | [] => None
  | pr :: rest =>
      let rsl := Split pr "/" in
      if decide (length rsl ≠ 2) then Some (MalformedRepo i pr)
      else PrivilegedRepos_range (S i) rest
  end.

Definition ProcessPrivilegedRepos (repostr : string) (kc : K8sConfig)
  : K8sConfig * option error :=
  let kc := set_PrivilegedRepoWhitelist (Split repostr ",") kc in
  (kc, PrivilegedRepos_range 0 (PrivilegedRepoWhitelist kc)).

(** *** [ProcessGroupBindings]

    [kc.GroupBindings] points to the map made on entry for the whole
    call, so the loop is written over that map [m]; what it leaves in
    [m] when it returns, with or without an error, is what the field
    holds.

    [GroupBindings_body] is the loop body below the [continue]: an
    error is the [return] of the function, [None] goes on to the next
    entry. *)
Definition GroupBindings_body (i : nat) (gb : string)
    (m : gmap string string) : gmap string string * option error :=
  let gbsl := Split gb "=" in
  if decide (length gbsl ≠ 2)
  then (m, Some (MalformedGroupBinding i gb))
  else if decide (String.length (gbsl !!! 0) = 0
                  ∨ String.length (gbsl !!! 1) = 0)
  then (m, Some (EmptyBinding i gb))
  else (<[gbsl !!! 0 := gbsl !!! 1]> m, None).

Fixpoint GroupBindings_range (i : nat) (gbs : list string)
    (m : gmap string string) : gmap string string * option error :=
  match gbs with
  | [] => (m, None)
  | gb :: rest =>
      if decide (gb = EmptyString) then GroupBindings_range (S i) rest m
      else
        match GroupBindings_body i gb m with
        | (m, None) => GroupBindings_range (S i) rest m
        | (m, Some err) => (m, Some err)
        end
  end.

Definition ProcessGroupBindings (gbstr : string) (kc : K8sConfig)
  : K8sConfig * option error :=
  let '(m, err) := GroupBindings_range 0 (Split gbstr ",") ∅ in
  (set_GroupBindings (Some m) kc, err).

(** *** [ProcessLabels] *)
Fixpoint Labels_range (labelsStr : string) (labels : list string)
    (m : gmap string string) : gmap string string * option error :=
  match labels with
  | [] => (m, None)
  | labelStr :: rest =>
      let keyValPair := Split labelStr "=" in
      if decide (length keyValPair ≠ 2)
      then (m, Some (MalformedLabel labelStr labelsStr))
      else
        let key := keyValPair !!! 0 in
        let value := keyValPair !!! 1 in
        Labels_range labelsStr rest (<[key := value]> m)
  end.

Definition ProcessLabels (labelsStr : string) (kc : K8sConfig)
  : K8sConfig * option error :=
  let labels := Split labelsStr "," in
  if decide (length labels = 0) then (set_Labels (Some ∅) kc, Some NoLabel)
  else
    let '(m, err) := Labels_range labelsStr labels ∅ in
    (set_Labels (Some m) kc, err).

(** *** [SecretFetcher] and [ProcessSecretInjections]

    [SecretFetcher] describes an object that fetches secrets.  [Get]
    may do anything to the fetcher, so it returns the fetcher it
    leaves behind next to Go's two results [([]byte, error)]. *)
Class SecretFetcher (F : Type) : Type :=
  Get : F → string → F * (list Byte.byte * option error).

(** [encoding/json], at the two types [config.go] decodes into:
    [json.Unmarshal(data, &v)] takes the bytes and the value [v]
    holds, and returns the value it leaves in [v] and its error. *)
Class Json : Type := {
  Unmarshal_K8sSecret :
    list Byte.byte → K8sSecret → K8sSecret * option error;
  Unmarshal_map :
    list Byte.byte → option (gmap string string) →
    option (gmap string string) * option error
}.

Fixpoint SecretInjections_range `{!Json} `{!SecretFetcher F}
    (sf : F) (i : nat) (sstrs : list string) (m : gmap string K8sSecret)
  : F * gmap string K8sSecret * option error :=
  match sstrs with
  | [] => (sf, m, None)
  | sstr :: rest =>
      if decide (sstr = EmptyString)
      then SecretInjections_range sf (S i) rest m
      else
        let ssl := Split sstr "=" in
        if decide (length ssl ≠ 2)
        then (sf, m, Some (MalformedSecretInjection i sstr))
        else if decide (String.length (ssl !!! 0) = 0
                        ∨ String.length (ssl !!! 1) = 0)
        then (sf, m, Some (EmptySecretInjection i sstr))
        else
          let '(sf, (val, err)) := Get sf (ssl !!! 1) in
          match err with
          | Some err => (sf, m, Some (FetchingSecret err (ssl !!! 1)))
          | None =>
              let '(secret, err) := Unmarshal_K8sSecret val K8sSecret_zero in
              match err with
              | Some err => (sf, m, Some (UnmarshalingSecret err (ssl !!! 1)))
              | None =>
                  SecretInjections_range sf (S i) rest (<[ssl !!! 0 := secret]> m)
              end
          end
  end.

Definition ProcessSecretInjections `{!Json} `{!SecretFetcher F}
    (sf : F) (injstr : string) (kc : K8sConfig)
  : F * K8sConfig * option error :=
  let '(sf, m, err) := SecretInjections_range sf 0 (Split injstr ",") ∅ in
  (sf, set_SecretInjections (Some m) kc, err).

(** *** [AminoConfig]

    The three mapping fields are taken to hold three distinct map
    objects, so that a decode into one is no change to another. *)
Record AminoConfig : Type := {
  HelmChartToRepoRaw : string;
  HelmChartToRepo : option (gmap string string);
  AminoDeploymentToRepoRaw : string;
  AminoDeploymentToRepo : option (gmap string string);
  AminoJobToRepoRaw : string;
  AminoJobToRepo : option (gmap string string)
}.

Definition set_HelmChartToRepo v (a : AminoConfig) : AminoConfig :=
  {| HelmChartToRepoRaw := HelmChartToRepoRaw a; HelmChartToRepo := v;
     AminoDeploymentToRepoRaw := AminoDeploymentToRepoRaw a;
     AminoDeploymentToRepo := AminoDeploymentToRepo a;
     AminoJobToRepoRaw := AminoJobToRepoRaw a;
     AminoJobToRepo := AminoJobToRepo a |}.

Definition set_AminoDeploymentToRepo v (a : AminoConfig) : AminoConfig :=
  {| HelmChartToRepoRaw := HelmChartToRepoRaw a;
     HelmChartToRepo := HelmChartToRepo a;
     AminoDeploymentToRepoRaw := AminoDeploymentToRepoRaw a;
     AminoDeploymentToRepo := v;
     AminoJobToRepoRaw := AminoJobToRepoRaw a;
     AminoJobToRepo := AminoJobToRepo a |}.

Definition set_AminoJobToRepo v (a : AminoConfig) : AminoConfig :=
  {| HelmChartToRepoRaw := HelmChartToRepoRaw a;
     HelmChartToRepo := HelmChartToRepo a;
     AminoDeploymentToRepoRaw := AminoDeploymentToRepoRaw a;
     AminoDeploymentToRepo := AminoDeploymentToRepo a;
     AminoJobToRepoRaw := AminoJobToRepoRaw a; AminoJobToRepo := v |}.

(** [[]byte(s)] *)
Definition bytes (s : string) : list Byte.byte := String.list_byte_of_string s.

Definition Parse `{!Json} (a : AminoConfig) : AminoConfig * option error :=
  let '(v, err) := Unmarshal_map (bytes (HelmChartToRepoRaw a)) (HelmChartToRepo a) in
  let a := set_HelmChartToRepo v a in
  match err with
  | Some err => (a, Some (UnmarshalingHelmChartToRepo err))
  | None =>
      let '(v, err) :=
        Unmarshal_map (bytes (AminoDeploymentToRepoRaw a)) (AminoDeploymentToRepo a) in
      let a := set_AminoDeploymentToRepo v a in
      match err with
      | Some err => (a, Some (UnmarshalingAminoDeploymentToRepo err))
      | None =>
          let '(v, err) :=
            Unmarshal_map (bytes (AminoJobToRepoRaw a)) (AminoJobToRepo a) in
          let a := set_AminoJobToRepo v a in
          match err with
          | Some err => (a, Some (UnmarshalingAminoJobToRepo err))
          | None => (a, None)
          end
      end
  end.

End config.

Import config.

(** ** Vocabulary of the properties *)

(** The entry [key<sep>value]. *)
Definition entry (sep : ascii) (kv : string * string) : string :=
  kv.1 +:+ String sep kv.2.

(** Splitting [e] on [sep] yields exactly two parts. *)
Definition two_parts (sep : ascii) (e : string) : Prop :=
  length (Split e sep) = 2.

Global Instance two_parts_dec sep e : Decision (two_parts sep e).
Proof. unfold two_parts. apply _. Defined.

(** Splitting [e] on [sep] yields exactly two parts and neither is the
    empty string. *)
Definition two_nontrivial_parts (sep : ascii) (e : string) : Prop :=
  match Split e sep with
  | [k; v] => k ≠ EmptyString ∧ v ≠ EmptyString
  | _ => False
  end.

Global Instance two_nontrivial_parts_dec sep e :
  Decision (two_nontrivial_parts sep e).
Proof.
  unfold two_nontrivial_parts.
  destruct (Split e sep) as [|k [|v [|? ?]]]; apply _.
Defined.

(** An entry that a loop with a [continue] for the empty entry neither
    skips nor rejects. *)
Definition bindable (gb : string) : Prop :=
  gb = EmptyString ∨ two_nontrivial_parts "=" gb.

Global Instance bindable_dec gb : Decision (bindable gb).
Proof. unfold bindable. apply _. Defined.

(** The two parts of an entry, as the parsers index them. *)
Definition parts (sep : ascii) (e : string) : string * string :=
  (Split e sep !!! 0, Split e sep !!! 1).

(** Map assignments [m[k] = v] in list order: a later pair with the
    same key overwrites an earlier one. *)
Definition assign_all {V} (m : gmap string V) (kvs : list (string * V))
  : gmap string V :=
  foldl (λ m kv, <[kv.1 := kv.2]> m) m kvs.

(** The entries of a [range] loop with their offsets. *)
Definition indexed (l : list string) : list (nat * string) :=
  imap (λ i gb, (i, gb)) l.

(** [GroupBindings_body] applied to each listed entry at its own
    offset, without any test for the empty entry, up to the first
    error. *)
Fixpoint GroupBindings_each (igbs : list (nat * string))
    (m : gmap string string) : gmap string string * option error :=
  match igbs with
  | [] => (m, None)
  | (i, gb) :: rest =>
      match GroupBindings_body i gb m with
      | (m, None) => GroupBindings_each rest m
      | (m, Some err) => (m, Some err)
      end
  end.

(** Every key and every value of [m] is non-empty. *)
Definition nonempty_bindings (m : gmap string string) : Prop :=
  ∀ k v, m !! k = Some v → k ≠ EmptyString ∧ v ≠ EmptyString.

(** Stand-ins for the collaborators, to run the parsers on examples.
    [fake_Json] decodes the document [{}] alone, into whatever the
    target holds (a nil map becomes an empty one); [fake_fetcher] is a
    store of secrets by identifier. *)
Definition fake_Json : Json := {|
  Unmarshal_K8sSecret val v :=
    if decide (String.string_of_list_byte val = "{}") then (v, None)
    else (v, Some (External "unexpected end of JSON input"));
  Unmarshal_map val v :=
    if decide (String.string_of_list_byte val = "{}")
    then (Some (default ∅ v), None)
    else (v, Some (External "unexpected end of JSON input"))
|}.

Definition fake_fetcher : SecretFetcher (gmap string (list Byte.byte)) :=
  λ sf id,
    match sf !! id with
    | Some val => (sf, (val, None))
    | None => (sf, ([], Some (External "secret not found")))
    end.

(** The longest prefix of [l] whose elements all satisfy [P]: the
    entries a loop gets through before the first one it rejects. *)
Fixpoint good_prefix {A} (P : A → Prop) `{!∀ x, Decision (P x)}
    (l : list A) : list A :=
  match l with
  | [] => []
  | x :: l => if decide (P x) then x :: good_prefix P l else []
  end.

(** The pairs that a loop with a [continue] for the empty entry
    assigns: the two parts of each non-empty entry. *)
Definition bound_pairs (l : list string) : list (string * string) :=
  parts "=" <$> filter (λ e, e ≠ EmptyString) l.

(** A fetcher that keeps, next to the fetcher it wraps, the identifiers
    it was asked for, oldest first. *)
Definition recording `(sf : !SecretFetcher F) : SecretFetcher (F * list string) :=
  λ s id,
    let '(s', r) := @Get F sf s.1 id in
    ((s', s.2 ++ [id]), r).

(** How the loop of [ProcessSecretInjections] over the entries
    [l1 ++ l2], started at offset [i], ended when [l1] is what it got
    through: with no error it got through everything; a fetch or decode
    error names the identifier of the last entry of [l1]; an error of
    the check names the first entry of [l2] and its offset. *)
Definition stops_after (i : nat) (l1 l2 : list string) (err : option error)
  : Prop :=
  match err with
  | None => l2 = []
  | Some (FetchingSecret _ id) | Some (UnmarshalingSecret _ id) =>
      ∃ l0 e, l1 = l0 ++ [e] ∧ two_nontrivial_parts "=" e ∧
              (parts "=" e).2 = id
  | Some (MalformedSecretInjection j e) | Some (EmptySecretInjection j e) =>
      ∃ l3, l2 = e :: l3 ∧ j = i + length l1 ∧
            e ≠ EmptyString ∧ ¬ two_nontrivial_parts "=" e
  | Some _ => False
  end.

(** ** [config_test.go] *)
Module config_test.

(** One row of the table of [TestProcessLabels]. *)
Record test_case : Type := {
  name : string;
  labelsStr : string;
  expectedErr : bool;
  expectedResult : option (gmap string string)
}.

Definition tests : list test_case := [
  {| name := "single valid label";
     labelsStr := "acyl.dev/managed-by=nitro";
     expectedErr := false;
     expectedResult := Some {["acyl.dev/managed-by" := "nitro"]} |};
  {| name := "multiple valid labels";
     labelsStr := "acyl.dev/managed-by=nitro,istio-injection=enabled";
     expectedErr := false;
     expectedResult :=
       Some (<["istio-injection" := "enabled"]>
               {["acyl.dev/managed-by" := "nitro"]}) |};
  {| name := "no label";
     labelsStr := "";
     expectedErr := true;
     expectedResult := Some ∅ |};
  {| name := "invalid labels";
     labelsStr := "potato,onion";
     expectedErr := true;
     expectedResult := Some ∅ |}
].

(** What a subtest reports: [None] when it passes, the [t.Fatalf] it
    stops at otherwise. *)
Inductive failure : Type :=
| UnexpectedError (err : option error)
| UnexpectedResults (labels : option (gmap string string)).

(** [reflect.DeepEqual] on two maps of strings: both nil, or both
    non-nil with the same entries. *)
Definition DeepEqual (x y : option (gmap string string)) : bool :=
  bool_decide (x = y).

(** The body of [t.Run]. *)
Definition run (tc : test_case) : option failure :=
  let k8scfg := K8sConfig_zero in
  let '(k8scfg, err) := ProcessLabels (labelsStr tc) k8scfg in
  let receivedErr := match err with Some _ => true | None => false end in
  if negb (eqb receivedErr (expectedErr tc)) then Some (UnexpectedError err)
  else if negb (DeepEqual (Labels k8scfg) (expectedResult tc))
  then Some (UnexpectedResults (Labels k8scfg))
  else None.

(** [TestProcessLabels]: every row, with what its subtest reports. *)
Definition TestProcessLabels : list (string * option failure) :=
  (λ tc, (name tc, run tc)) <$> tests.

End config_test.

(** ** Facts about [strings.Split] *)

Section split_facts.
Variable sep : ascii.

Lemma Split_empty : Split EmptyString sep = [EmptyString].
Proof. reflexivity. Qed.

Lemma Split_sep s : Split (String sep s) sep = EmptyString :: Split s sep.
Proof.
  unfold Split. simpl. rewrite decide_True by done. simpl.
  rewrite decide_True by done. reflexivity.
Qed.

Lemma genSplit_other n a s :
  a ≠ sep →
  genSplit n (String a s) sep =
    match genSplit n s sep with
    | t :: ts => String a t :: ts
    | [] => [String a EmptyString]
    end.
Proof.
  intros Ha. destruct n as [|n]; simpl; [done|].
  rewrite decide_False by done.
  destruct (Index s sep) as [m|]; simpl; done.
Qed.

Lemma Split_other a s :
  a ≠ sep →
  Split (String a s) sep =
    match Split s sep with
    | t :: ts => String a t :: ts
    | [] => [String a EmptyString]
    end.
Proof.
  intros Ha. unfold Split. simpl. rewrite decide_False by done. simpl.
  by apply genSplit_other.
Qed.

(** The length that [genSplit] allocates: one more than the number of
    separators. *)
Lemma Split_length s : length (Split s sep) = Count s sep + 1.
Proof.
  induction s as [|a s IH]; [done|].
  destruct (decide (a = sep)) as [->|Ha].
  - rewrite Split_sep. simpl. rewrite decide_True by done. simpl. lia.
  - rewrite Split_other by done. simpl. rewrite decide_False by done.
    destruct (Split s sep); simpl in *; lia.
Qed.

Lemma Split_nonempty s : Split s sep ≠ [].
Proof.
  intros H. pose proof (Split_length s) as HL. rewrite H in HL.
  simpl in HL. lia.
Qed.

Lemma Split_free s : free_of sep s → Split s sep = [s].
Proof. unfold free_of, Split. by intros ->. Qed.

Lemma Split_singleton s t : Split s sep = [t] → t = s ∧ free_of sep s.
Proof.
  intros H. assert (Count s sep = 0) as H0.
  { pose proof (Split_length s) as HL. rewrite H in HL. simpl in HL. lia. }
  split; [|done]. rewrite Split_free in H by done. congruence.
Qed.

Lemma Count_app s t : Count (s +:+ t) sep = Count s sep + Count t sep.
Proof. induction s as [|a s IH]; simpl; [done|]. rewrite IH. lia. Qed.

(** Splitting [e ++ sep :: s] when [e] holds no separator. *)
Lemma Split_app_sep e s :
  free_of sep e →
  Split (e +:+ String sep s) sep = e :: Split s sep.
Proof.
  unfold free_of. induction e as [|a e IH]; intros He.
  - apply Split_sep.
  - simpl in He. destruct (decide (a = sep)) as [->|Ha]; [lia|].
    change (String a e +:+ String sep s) with (String a (e +:+ String sep s)).
    rewrite Split_other by done. rewrite IH by lia. done.
Qed.

(** [Split] undoes [Join] on a non-empty list of separator-free
    elements. *)
Lemma Split_Join es :
  es ≠ [] → Forall (free_of sep) es → Split (Join es sep) sep = es.
Proof.
  induction es as [|e es IH]; [done|]. intros _ Hall.
  apply Forall_cons in Hall as [He Hes].
  destruct es as [|e' es]; [by apply Split_free|].
  change (Join (e :: e' :: es) sep) with (e +:+ String sep (Join (e' :: es) sep)).
  rewrite Split_app_sep by done. f_equal. by apply IH.
Qed.

(** [Join] undoes [Split] on every string. *)
Lemma Join_Split s : Join (Split s sep) sep = s.
Proof.
  induction s as [|a s IH]; [done|].
  destruct (decide (a = sep)) as [->|Ha].
  - rewrite Split_sep. pose proof (Split_nonempty s).
    destruct (Split s sep) as [|t ts]; [done|].
    change (Join (EmptyString :: t :: ts) sep)
      with (EmptyString +:+ String sep (Join (t :: ts) sep)).
    by rewrite IH.
  - rewrite Split_other by done. pose proof (Split_nonempty s).
    destruct (Split s sep) as [|t ts]; [done|].
    destruct ts as [|t' ts]; [simpl in *; congruence|].
    change (Join (String a t :: t' :: ts) sep)
      with (String a (t +:+ String sep (Join (t' :: ts) sep))).
    change (Join (t :: t' :: ts) sep)
      with (t +:+ String sep (Join (t' :: ts) sep)) in IH.
    by rewrite IH.
Qed.

(** No element of a split holds the separator. *)
Lemma Split_Forall_free s : Forall (free_of sep) (Split s sep).
Proof.
  induction s as [|a s IH]; [by repeat constructor|].
  destruct (decide (a = sep)) as [->|Ha].
  - rewrite Split_sep. by constructor.
  - rewrite Split_other by done.
    destruct (Split s sep) as [|t ts]; inversion IH; subst;
      constructor; try done; unfold free_of in *; simpl;
      by rewrite decide_False.
Qed.

End split_facts.

(** ** Small facts used throughout *)

Lemma length_two {A} (l : list A) : length l = 2 → ∃ a b, l = [a; b].
Proof. destruct l as [|a [|b [|c l]]]; simpl; intros; try lia; eauto. Qed.

Lemma string_length_0 (s : string) : String.length s = 0 ↔ s = EmptyString.
Proof. destruct s; simpl; split; intros; congruence || lia. Qed.

Lemma two_parts_Count sep e : two_parts sep e ↔ Count e sep = 1.
Proof. unfold two_parts. rewrite Split_length. lia. Qed.

Lemma two_nontrivial_two_parts sep e :
  two_nontrivial_parts sep e → two_parts sep e.
Proof.
  unfold two_nontrivial_parts, two_parts.
  by destruct (Split e sep) as [|k [|v [|? ?]]].
Qed.

Lemma Split_entry sep kv :
  free_of sep kv.1 → free_of sep kv.2 → Split (entry sep kv) sep = [kv.1; kv.2].
Proof.
  intros H1 H2. unfold entry. rewrite Split_app_sep by done.
  by rewrite Split_free.
Qed.

Lemma Count_entry_other c sep kv :
  c ≠ sep → free_of c kv.1 → free_of c kv.2 → free_of c (entry sep kv).
Proof.
  unfold free_of, entry. intros Hc H1 H2. rewrite Count_app, H1. simpl.
  rewrite decide_False by done. by rewrite H2.
Qed.

(** A list either satisfies a decidable property throughout or has a
    first element that breaks it. *)
Lemma first_failure {A} (P : A → Prop) `{!∀ x, Decision (P x)} (l : list A) :
  Forall P l ∨ ∃ l1 x l2, l = l1 ++ x :: l2 ∧ Forall P l1 ∧ ¬ P x.
Proof.
  induction l as [|a l IH]; [by left|].
  destruct (decide (P a)) as [Ha|Ha].
  - destruct IH as [IH|(l1 & x & l2 & -> & H1 & Hx)].
    + left. by constructor.
    + right. exists (a :: l1), x, l2. split_and!; [done| by constructor | done].
  - right. exists [], a, l. by split_and!.
Qed.

Lemma assign_all_snoc {V} (m : gmap string V) kvs kv :
  assign_all m (kvs ++ [kv]) = <[kv.1 := kv.2]> (assign_all m kvs).
Proof. unfold assign_all. by rewrite foldl_snoc. Qed.

Lemma assign_all_cons {V} (m : gmap string V) kvs kv :
  assign_all m (kv :: kvs) = assign_all (<[kv.1 := kv.2]> m) kvs.
Proof. done. Qed.

Lemma assign_all_app {V} (m : gmap string V) l1 l2 :
  assign_all m (l1 ++ l2) = assign_all (assign_all m l1) l2.
Proof. unfold assign_all. by rewrite foldl_app. Qed.

Lemma assign_all_notin {V} (m : gmap string V) kvs k :
  k ∉ kvs.*1 → assign_all m kvs !! k = m !! k.
Proof.
  induction kvs as [|kv kvs IH] using rev_ind; [done|].
  rewrite fmap_app, not_elem_of_app. simpl. intros [H1 H2].
  rewrite assign_all_snoc, lookup_insert_ne; [by apply IH|].
  intros <-. apply H2. by left.
Qed.

(** What a lookup finds after the assignments: the value of the last
    pair with that key. *)
Lemma assign_all_lookup {V} (kvs : list (string * V)) k v :
  assign_all ∅ kvs !! k = Some v ↔
  ∃ l1 l2, kvs = l1 ++ (k, v) :: l2 ∧ k ∉ l2.*1.
Proof.
  split.
  - induction kvs as [|[k' v'] kvs IH] using rev_ind; [done|].
    rewrite assign_all_snoc. simpl.
    destruct (decide (k' = k)) as [->|Hne].
    + rewrite lookup_insert_eq. intros [= ->]. exists kvs, [].
      split; [done|]. simpl. apply not_elem_of_nil.
    + rewrite lookup_insert_ne by done. intros H.
      destruct (IH H) as (l1 & l2 & -> & Hk).
      exists l1, (l2 ++ [(k', v')]). split; [by rewrite <- app_assoc|].
      rewrite fmap_app, not_elem_of_app. split; [done|]. simpl.
      rewrite list_elem_of_singleton. congruence.
  - intros (l1 & l2 & -> & Hk).
    rewrite assign_all_app, assign_all_cons, assign_all_notin by done.
    apply lookup_insert_eq.
Qed.

(** ** [ProcessLabels] *)
Section ProcessLabels_facts.
Implicit Types (labelsStr : string) (m : gmap string string).

Lemma Labels_range_two_parts labelsStr labels m :
  Forall (two_parts "=") labels →
  Labels_range labelsStr labels m =
    (assign_all m (parts "=" <$> labels), None).
Proof.
  intros Hall. revert m.
  induction Hall as [|e l He Hl IH]; intros m; [done|].
  simpl. rewrite decide_False by (unfold two_parts in He; lia).
  by rewrite IH.
Qed.

Lemma Labels_range_first_malformed labelsStr l1 e l2 m :
  Forall (two_parts "=") l1 → ¬ two_parts "=" e →
  Labels_range labelsStr (l1 ++ e :: l2) m =
    (assign_all m (parts "=" <$> l1), Some (MalformedLabel e labelsStr)).
Proof.
  intros Hall He. revert m.
  induction Hall as [|x l Hx Hl IH]; intros m; simpl.
  - by rewrite decide_True.
  - rewrite decide_False by (unfold two_parts in Hx; lia). by rewrite IH.
Qed.

Lemma Labels_range_error labelsStr labels m :
  (Labels_range labelsStr labels m).2 ≠ Some NoLabel.
Proof.
  destruct (first_failure (two_parts "=") labels)
    as [Hall|(l1 & e & l2 & -> & Hall & He)].
  - by rewrite Labels_range_two_parts.
  - by rewrite Labels_range_first_malformed.
Qed.

Lemma ProcessLabels_unfold labelsStr kc :
  ProcessLabels labelsStr kc =
    (set_Labels (Some (Labels_range labelsStr (Split labelsStr ",") ∅).1) kc,
     (Labels_range labelsStr (Split labelsStr ",") ∅).2).
Proof.
  unfold ProcessLabels.
  rewrite decide_False
    by (pose proof (Split_length "," labelsStr); lia).
  by destruct (Labels_range _ _ _).
Qed.

End ProcessLabels_facts.

(** C1, as the claim states it, fails: the entry [a=] splits on [=]
    into [a] and the empty string, which are not two non-empty parts,
    and [ProcessLabels] accepts it and stores the empty value. *)
Lemma C1_empty_value_accepted :
  "a=" ∈ Split "a=" "," ∧
  ¬ two_nontrivial_parts "=" "a=" ∧
  ProcessLabels "a=" K8sConfig_zero =
    (set_Labels (Some {["a" := ""]}) K8sConfig_zero, None).
Proof.
  split_and!; [by left | by intros [_ ?] | reflexivity].
Qed.

(** C1, amended: when some entry of the comma split does not split on
    [=] in exactly two parts, that is, does not hold exactly one [=],
    [ProcessLabels] fails with the malformed-label error that carries
    the first such entry (and the whole input).  The two parts are not
    required to be non-empty. *)
Theorem C1_ProcessLabels_malformed_entry (labelsStr : string) (kc : K8sConfig) :
  (∀ e, e ∈ Split labelsStr "," → ¬ two_parts "=" e →
        ∃ i e',
          Split labelsStr "," !! i = Some e' ∧ ¬ two_parts "=" e' ∧
          Forall (two_parts "=") (take i (Split labelsStr ",")) ∧
          (ProcessLabels labelsStr kc).2 = Some (MalformedLabel e' labelsStr)) ∧
  (∀ e, two_parts "=" e ↔ Count e "=" = 1).
Proof.
  split; [|intros e; apply two_parts_Count].
  intros e Hin He.
  destruct (first_failure (two_parts "=") (Split labelsStr ","))
    as [Hall|(l1 & e' & l2 & Hs & Hall & Hbad)].
  - rewrite Forall_forall in Hall. destruct He. by apply Hall.
  - exists (length l1), e'. split_and!; [| done | |].
    + rewrite Hs. by apply list_lookup_middle.
    + by rewrite Hs, take_app_length.
    + rewrite ProcessLabels_unfold, Hs. simpl.
      by rewrite Labels_range_first_malformed.
Qed.

Lemma C1_ProcessLabels_malformed_entry_witness :
  ∃ i e',
    Split "a=b,potato,c" "," !! i = Some e' ∧ ¬ two_parts "=" e' ∧
    Forall (two_parts "=") (take i (Split "a=b,potato,c" ",")) ∧
    (ProcessLabels "a=b,potato,c" K8sConfig_zero).2 =
      Some (MalformedLabel e' "a=b,potato,c").
Proof.
  apply (proj1 (C1_ProcessLabels_malformed_entry "a=b,potato,c" K8sConfig_zero)
           "c").
  - vm_compute. do 2 right. left.
  - unfold two_parts. vm_compute. lia.
Defined.

(** C2: [ProcessLabels("")] returns an error, the malformed-label error
    of the one empty entry, and leaves [Labels] a non-nil map without
    entries, whatever the receiver held before. *)
Theorem C2_ProcessLabels_empty_string (kc : K8sConfig) :
  (ProcessLabels "" kc).2 = Some (MalformedLabel "" "") ∧
  Labels (ProcessLabels "" kc).1 = Some ∅.
Proof. split; reflexivity. Qed.

(** C3: for a non-empty list of pairs whose keys and values hold
    neither [,] nor [=], [ProcessLabels] on the comma-joined
    [key=value] entries succeeds and [Labels] holds exactly the pairs:
    a lookup finds [v] under [k] exactly when [(k, v)] is the last pair
    of the list with key [k]. *)
Theorem C3_ProcessLabels_well_formed
    (kvs : list (string * string)) (kc : K8sConfig) :
  kvs ≠ [] →
  Forall (λ kv, (free_of "," kv.1 ∧ free_of "=" kv.1) ∧
                (free_of "," kv.2 ∧ free_of "=" kv.2)) kvs →
  ∃ m,
    ProcessLabels (Join (entry "=" <$> kvs) ",") kc =
      (set_Labels (Some m) kc, None) ∧
    (ProcessLabels (Join (entry "=" <$> kvs) ",") kc).2 = None ∧
    Labels (ProcessLabels (Join (entry "=" <$> kvs) ",") kc).1 = Some m ∧
    m = assign_all ∅ kvs ∧
    ∀ k v, m !! k = Some v ↔ ∃ l1 l2, kvs = l1 ++ (k, v) :: l2 ∧ k ∉ l2.*1.
Proof.
  intros Hne Hwf. exists (assign_all ∅ kvs).
  assert (ProcessLabels (Join (entry "=" <$> kvs) ",") kc =
            (set_Labels (Some (assign_all ∅ kvs)) kc, None)) as Hrun;
    [|rewrite Hrun; split_and!; [done..|apply assign_all_lookup]].
  rewrite ProcessLabels_unfold, Split_Join.
  - rewrite Labels_range_two_parts.
    + assert (parts "=" <$> (entry "=" <$> kvs) = kvs) as ->; [|done].
      rewrite <- list_fmap_compose. rewrite <- (list_fmap_id kvs) at 2.
      apply Forall_fmap_ext_1.
      eapply Forall_impl; [exact Hwf|]. intros [k v] [[_ Hk] [_ Hv]].
      unfold parts. simpl. by rewrite Split_entry.
    + apply Forall_fmap. eapply Forall_impl; [exact Hwf|].
      intros kv [[_ Hk] [_ Hv]]. simpl. unfold two_parts.
      by rewrite Split_entry.
  - by destruct kvs.
  - apply Forall_fmap. eapply Forall_impl; [exact Hwf|].
    intros kv [[Hk _] [Hv _]]. by apply Count_entry_other.
Qed.

Lemma C3_ProcessLabels_well_formed_witness :
  ∃ m,
    ProcessLabels "a=1,b=2,a=3" K8sConfig_zero =
      (set_Labels (Some m) K8sConfig_zero, None) ∧
    (ProcessLabels "a=1,b=2,a=3" K8sConfig_zero).2 = None ∧
    Labels (ProcessLabels "a=1,b=2,a=3" K8sConfig_zero).1 = Some m ∧
    m = assign_all ∅ [("a", "1"); ("b", "2"); ("a", "3")] ∧
    ∀ k v, m !! k = Some v ↔
           ∃ l1 l2, [("a", "1"); ("b", "2"); ("a", "3")] = l1 ++ (k, v) :: l2
                    ∧ k ∉ l2.*1.
Proof.
  apply (C3_ProcessLabels_well_formed
           [("a", "1"); ("b", "2"); ("a", "3")] K8sConfig_zero).
  - discriminate.
  - repeat constructor.
Defined.

(** C4: splitting on [,] yields at least one token for every input (one
    empty token for the empty string), so the zero-entry branch is never
    taken and [ProcessLabels] never returns the
    at-least-one-label-should-be-provided error. *)
Theorem C4_ProcessLabels_zero_entries_unreachable
    (labelsStr : string) (kc : K8sConfig) :
  1 ≤ length (Split labelsStr ",") ∧
  Split "" "," = [""] ∧
  (ProcessLabels labelsStr kc).2 ≠ Some NoLabel.
Proof.
  split_and!.
  - rewrite Split_length. lia.
  - reflexivity.
  - rewrite ProcessLabels_unfold. apply Labels_range_error.
Qed.

(** ** [ProcessPrivilegedRepos] *)
Section ProcessPrivilegedRepos_facts.

Lemma PrivilegedRepos_range_None i prs :
  PrivilegedRepos_range i prs = None ↔ Forall (two_parts "/") prs.
Proof.
  revert i. induction prs as [|pr prs IH]; intros i; simpl.
  - split; [constructor | done].
  - rewrite Forall_cons. unfold two_parts at 1. case_decide.
    + split; [done | tauto].
    + rewrite IH. split; [split; [lia | done] | tauto].
Qed.

Lemma PrivilegedRepos_range_Some i prs err :
  PrivilegedRepos_range i prs = Some err →
  ∃ j pr, err = MalformedRepo (i + j) pr ∧ prs !! j = Some pr ∧
          Forall (two_parts "/") (take j prs) ∧ ¬ two_parts "/" pr.
Proof.
  revert i. induction prs as [|pr prs IH]; intros i; simpl; [done|].
  case_decide as Hl.
  - intros [= <-]. exists 0, pr. rewrite Nat.add_0_r.
    split_and!; [done | done | constructor | done].
  - intros (j & pr' & -> & Hj & Ht & Hpr)%IH. exists (S j), pr'.
    split_and!; [f_equal; lia | done | | done].
    simpl. constructor; [unfold two_parts; lia | done].
Qed.

(** An entry that splits on [/] in two is [owner/repo] for an owner
    and a repo without [/]; either may be empty. *)
Lemma two_parts_entry sep e :
  two_parts sep e →
  ∃ kv, e = entry sep kv ∧ free_of sep kv.1 ∧ free_of sep kv.2.
Proof.
  intros (a & b & Hab)%length_two. exists (a, b).
  pose proof (Split_Forall_free sep e) as Hf. rewrite Hab in Hf.
  apply Forall_cons in Hf as [Ha Hf]. apply Forall_cons in Hf as [Hb _].
  split_and!; [|done..].
  rewrite <- (Join_Split sep e), Hab. done.
Qed.

End ProcessPrivilegedRepos_facts.

(** C5, as the claim states it, fails: [ProcessPrivilegedRepos("/")]
    succeeds and the whitelist holds the entry [/], whose owner and
    repo segments are both empty. *)
Lemma C5_empty_segments_accepted :
  ProcessPrivilegedRepos "/" K8sConfig_zero =
    (set_PrivilegedRepoWhitelist ["/"] K8sConfig_zero, None) ∧
  Split "/" "/" = [""; ""] ∧
  ¬ Forall (two_nontrivial_parts "/")
      (PrivilegedRepoWhitelist (ProcessPrivilegedRepos "/" K8sConfig_zero).1).
Proof.
  split_and!; [reflexivity..|].
  intros H. apply Forall_cons in H as [[H _] _]. by apply H.
Qed.

(** C5, amended: after a successful [ProcessPrivilegedRepos] the
    whitelist is the comma split of the input, in input order, and
    every entry holds exactly one [/]: it is [owner/repo] for an owner
    and a repo without [/], either of which may be empty. *)
Theorem C5_ProcessPrivilegedRepos_whitelist
    (repostr : string) (kc kc' : K8sConfig) :
  ProcessPrivilegedRepos repostr kc = (kc', None) →
  PrivilegedRepoWhitelist kc' = Split repostr "," ∧
  Forall (λ pr, Count pr "/" = 1 ∧
                ∃ owner repo, pr = entry "/" (owner, repo) ∧
                              free_of "/" owner ∧ free_of "/" repo)
    (PrivilegedRepoWhitelist kc').
Proof.
  unfold ProcessPrivilegedRepos. simpl. intros [= <- Hr]. simpl.
  split; [done|]. apply PrivilegedRepos_range_None in Hr.
  eapply Forall_impl; [exact Hr|]. intros pr Hpr. split.
  - by apply two_parts_Count.
  - destruct (two_parts_entry _ _ Hpr) as ([owner repo] & ? & ? & ?). eauto.
Qed.

Lemma C5_ProcessPrivilegedRepos_whitelist_witness :
  PrivilegedRepoWhitelist
    (set_PrivilegedRepoWhitelist ["org/repo1"; "org/repo2"] K8sConfig_zero) =
    Split "org/repo1,org/repo2" "," ∧
  Forall (λ pr, Count pr "/" = 1 ∧
                ∃ owner repo, pr = entry "/" (owner, repo) ∧
                              free_of "/" owner ∧ free_of "/" repo)
    (PrivilegedRepoWhitelist
       (set_PrivilegedRepoWhitelist ["org/repo1"; "org/repo2"] K8sConfig_zero)).
Proof.
  apply (C5_ProcessPrivilegedRepos_whitelist
           "org/repo1,org/repo2" K8sConfig_zero). reflexivity.
Defined.

(** C10: [ProcessPrivilegedRepos] stores the whole comma split of its
    input in [PrivilegedRepoWhitelist] whether or not it returns an
    error, so what the field held before is gone and the field is never
    nil afterwards; an error it returns is the malformed-repo error of
    an offset at which the field holds the reported token, the first
    that does not split on [/] in two, and the tokens after it are in
    the field as well. *)
Theorem C10_ProcessPrivilegedRepos_assigns_first
    (repostr : string) (kc : K8sConfig) :
  PrivilegedRepoWhitelist (ProcessPrivilegedRepos repostr kc).1 =
    Split repostr "," ∧
  PrivilegedRepoWhitelist (ProcessPrivilegedRepos repostr kc).1 ≠ [] ∧
  match (ProcessPrivilegedRepos repostr kc).2 with
  | None => Forall (two_parts "/") (Split repostr ",")
  | Some err =>
      ∃ i pr, err = MalformedRepo i pr ∧
              PrivilegedRepoWhitelist (ProcessPrivilegedRepos repostr kc).1 !! i
                = Some pr ∧
              Forall (two_parts "/") (take i (Split repostr ",")) ∧
              ¬ two_parts "/" pr
  end.
Proof.
  unfold ProcessPrivilegedRepos. simpl. split_and!; [done | apply Split_nonempty |].
  destruct (PrivilegedRepos_range 0 (Split repostr ",")) as [err|] eqn:Hr.
  - apply PrivilegedRepos_range_Some in Hr as (j & pr & -> & ? & ? & ?).
    exists j, pr. done.
  - by apply PrivilegedRepos_range_None in Hr.
Qed.

(** ** [ProcessGroupBindings] *)
Section ProcessGroupBindings_facts.
Implicit Types (gb : string) (m : gmap string string).

Lemma GroupBindings_body_ok i gb m :
  two_nontrivial_parts "=" gb →
  GroupBindings_body i gb m =
    (<[(parts "=" gb).1 := (parts "=" gb).2]> m, None) ∧
  (parts "=" gb).1 ≠ EmptyString ∧ (parts "=" gb).2 ≠ EmptyString.
Proof.
  unfold two_nontrivial_parts, GroupBindings_body, parts.
  destruct (Split gb "=") as [|k [|v [|? ?]]]; try done. intros [Hk Hv].
  simpl. rewrite decide_False; [done|]. rewrite !string_length_0. tauto.
Qed.

Lemma GroupBindings_body_bad i gb m :
  ¬ two_nontrivial_parts "=" gb →
  GroupBindings_body i gb m =
    (m, Some (if decide (two_parts "=" gb)
              then EmptyBinding i gb else MalformedGroupBinding i gb)).
Proof.
  unfold two_nontrivial_parts, GroupBindings_body, two_parts.
  intros Hbad. case_decide as Hl.
  - by rewrite decide_False.
  - rewrite (decide_True (P := length _ = 2)) by lia.
    destruct (Split gb "=") as [|k [|v [|? ?]]]; try done.
    simpl. rewrite decide_True; [done|]. rewrite !string_length_0.
    destruct (decide (k = EmptyString)); [by left|].
    destruct (decide (v = EmptyString)); [by right|]. by destruct Hbad.
Qed.

Lemma GroupBindings_range_nonempty i gbs m :
  nonempty_bindings m → nonempty_bindings (GroupBindings_range i gbs m).1.
Proof.
  revert i m. induction gbs as [|gb gbs IH]; intros i m Hm; simpl; [done|].
  case_decide; [by apply IH|].
  destruct (decide (two_nontrivial_parts "=" gb)) as [Hgb|Hgb].
  - destruct (GroupBindings_body_ok i gb m Hgb) as (-> & Hk & Hv).
    apply IH. intros k v.
    destruct (decide ((parts "=" gb).1 = k)) as [<-|Hne].
    + rewrite lookup_insert_eq. by intros [= <-].
    + rewrite lookup_insert_ne by done. apply Hm.
  - by rewrite GroupBindings_body_bad.
Qed.

Lemma GroupBindings_range_first_bad i l1 gb l2 m :
  Forall bindable l1 → ¬ bindable gb →
  (GroupBindings_range i (l1 ++ gb :: l2) m).2 =
    Some (if decide (two_parts "=" gb)
          then EmptyBinding (i + length l1) gb
          else MalformedGroupBinding (i + length l1) gb).
Proof.
  intros Hall Hgb. revert i m.
  induction Hall as [|x l Hx Hl IH]; intros i m; simpl.
  - rewrite Nat.add_0_r. unfold bindable in Hgb.
    rewrite decide_False by tauto.
    rewrite GroupBindings_body_bad by tauto. done.
  - replace (i + S (length l)) with (S i + length l) by lia.
    destruct (decide (x = EmptyString)) as [?|Hne]; [by apply IH|].
    destruct Hx as [?|Hx]; [done|].
    destruct (GroupBindings_body_ok i x m Hx) as (-> & _). by apply IH.
Qed.

Lemma GroupBindings_range_each i gbs m :
  GroupBindings_range i gbs m =
    GroupBindings_each
      (filter (λ igb, igb.2 ≠ EmptyString) (imap (λ j gb, (i + j, gb)) gbs)) m.
Proof.
  revert i m. induction gbs as [|gb gbs IH]; intros i m; [done|].
  rewrite imap_cons. simpl GroupBindings_range.
  rewrite (imap_ext _ (λ j gb, (S i + j, gb)))
    by (intros; simpl; f_equal; lia).
  rewrite Nat.add_0_r. case_decide as Hgb.
  - rewrite filter_cons_False by (simpl; tauto). apply IH.
  - rewrite filter_cons_True by done. simpl.
    destruct (GroupBindings_body i gb m) as [m' [err|]]; [done|]. apply IH.
Qed.

Lemma ProcessGroupBindings_unfold gbstr kc :
  ProcessGroupBindings gbstr kc =
    (set_GroupBindings (Some (GroupBindings_range 0 (Split gbstr ",") ∅).1) kc,
     (GroupBindings_range 0 (Split gbstr ",") ∅).2).
Proof. unfold ProcessGroupBindings. by destruct (GroupBindings_range _ _ _). Qed.

End ProcessGroupBindings_facts.

(** C6: after a successful [ProcessGroupBindings] every key and every
    value of [GroupBindings] is non-empty; and when some entry of the
    comma split is neither empty nor a pair of two non-empty parts, the
    call fails with the error of the first such entry, which carries
    its offset and its raw text: the empty-binding error when the entry
    splits on [=] in two, the malformed-group-binding error
    otherwise. *)
Theorem C6_ProcessGroupBindings_nonempty (gbstr : string) (kc : K8sConfig) :
  (∀ kc', ProcessGroupBindings gbstr kc = (kc', None) →
          ∃ m, GroupBindings kc' = Some m ∧ nonempty_bindings m) ∧
  (∀ gb, gb ∈ Split gbstr "," → gb ≠ EmptyString →
         ¬ two_nontrivial_parts "=" gb →
         ∃ i gb',
           Split gbstr "," !! i = Some gb' ∧
           gb' ≠ EmptyString ∧ ¬ two_nontrivial_parts "=" gb' ∧
           Forall bindable (take i (Split gbstr ",")) ∧
           (ProcessGroupBindings gbstr kc).2 =
             Some (if decide (two_parts "=" gb')
                   then EmptyBinding i gb' else MalformedGroupBinding i gb')).
Proof.
  split.
  - intros kc'. rewrite ProcessGroupBindings_unfold. intros [= <- _].
    eexists. split; [done|]. by apply GroupBindings_range_nonempty.
  - intros gb Hin Hne Hgb.
    destruct (first_failure bindable (Split gbstr ","))
      as [Hall|(l1 & gb' & l2 & Hs & Hall & Hbad)].
    + rewrite Forall_forall in Hall. destruct (Hall gb Hin); done.
    + exists (length l1), gb'. unfold bindable in Hbad.
      split_and!; [|tauto..| |].
      * rewrite Hs. by apply list_lookup_middle.
      * by rewrite Hs, take_app_length.
      * rewrite ProcessGroupBindings_unfold, Hs. simpl.
        by rewrite GroupBindings_range_first_bad.
Qed.

Lemma C6_ProcessGroupBindings_nonempty_witness :
  (∃ m, GroupBindings
          (set_GroupBindings (Some (<["h" := "s"]> {["g" := "r"]})) K8sConfig_zero)
          = Some m ∧ nonempty_bindings m) ∧
  (∃ i gb',
     Split "g=r,,=x,y" "," !! i = Some gb' ∧
     gb' ≠ EmptyString ∧ ¬ two_nontrivial_parts "=" gb' ∧
     Forall bindable (take i (Split "g=r,,=x,y" ",")) ∧
     (ProcessGroupBindings "g=r,,=x,y" K8sConfig_zero).2 =
       Some (if decide (two_parts "=" gb')
             then EmptyBinding i gb' else MalformedGroupBinding i gb')).
Proof.
  split.
  - apply (proj1 (C6_ProcessGroupBindings_nonempty "g=r,,h=s" K8sConfig_zero)).
    reflexivity.
  - apply (proj2 (C6_ProcessGroupBindings_nonempty "g=r,,=x,y" K8sConfig_zero) "y").
    + vm_compute. do 3 right. left.
    + discriminate.
    + vm_compute. tauto.
Defined.

(** C7: [ProcessGroupBindings("")] succeeds and leaves [GroupBindings]
    an empty map; for every input the call does what the loop body does
    on the non-empty entries alone, each at its own offset, so an empty
    entry is skipped, whereas the loop body, given the empty entry,
    reports it as malformed. *)
Theorem C7_ProcessGroupBindings_skips_empty (gbstr : string) (kc : K8sConfig) :
  ProcessGroupBindings "" kc = (set_GroupBindings (Some ∅) kc, None) ∧
  ((ProcessGroupBindings "" kc).2 = None ∧
   GroupBindings (ProcessGroupBindings "" kc).1 = Some ∅) ∧
  ProcessGroupBindings gbstr kc =
    (let '(m, err) :=
       GroupBindings_each
         (filter (λ igb, igb.2 ≠ EmptyString) (indexed (Split gbstr ","))) ∅ in
     (set_GroupBindings (Some m) kc, err)) ∧
  ((ProcessGroupBindings gbstr kc).2 =
     (GroupBindings_each
        (filter (λ igb, igb.2 ≠ EmptyString) (indexed (Split gbstr ","))) ∅).2 ∧
   GroupBindings (ProcessGroupBindings gbstr kc).1 =
     Some (GroupBindings_each
             (filter (λ igb, igb.2 ≠ EmptyString)
                (indexed (Split gbstr ","))) ∅).1) ∧
  (∀ i m, GroupBindings_body i "" m = (m, Some (MalformedGroupBinding i ""))).
Proof.
  assert (ProcessGroupBindings gbstr kc =
            (let '(m, err) :=
               GroupBindings_each
                 (filter (λ igb, igb.2 ≠ EmptyString)
                    (indexed (Split gbstr ","))) ∅ in
             (set_GroupBindings (Some m) kc, err))) as Hrun.
  { unfold ProcessGroupBindings, indexed.
    by rewrite GroupBindings_range_each. }
  split_and!; [reflexivity | reflexivity | reflexivity | done | | | reflexivity].
  - rewrite Hrun. by destruct (GroupBindings_each _ _).
  - rewrite Hrun. by destruct (GroupBindings_each _ _).
Qed.

(** ** [ProcessSecretInjections] *)
Section ProcessSecretInjections_facts.
Context `{!Json} `{!SecretFetcher F}.
Implicit Types (sf : F) (m : gmap string K8sSecret).

Lemma SecretInjections_range_app sf i l1 l2 m :
  SecretInjections_range sf i (l1 ++ l2) m =
    match SecretInjections_range sf i l1 m with
    | (sf', m', None) => SecretInjections_range sf' (i + length l1) l2 m'
    | r => r
    end.
Proof.
  revert sf i m. induction l1 as [|x l1 IH]; intros sf i m; simpl.
  - by rewrite Nat.add_0_r.
  - replace (i + S (length l1)) with (S i + length l1) by lia.
    destruct (decide (x = EmptyString)); [apply IH|].
    destruct (decide (length (Split x "=") ≠ 2)); [done|].
    destruct (decide (_ ∨ _)); [done|].
    destruct (Get sf _) as [sf' [val [err|]]]; [done|].
    destruct (Unmarshal_K8sSecret _ _) as [secret [err|]]; [done|].
    apply IH.
Qed.

(** The loop at an entry [name=id] with both parts non-empty: the
    three ways on. *)
Lemma SecretInjections_range_entry sf i name id rest m :
  name ≠ EmptyString → id ≠ EmptyString →
  free_of "=" name → free_of "=" id →
  SecretInjections_range sf i (entry "=" (name, id) :: rest) m =
    (let '(sf, (val, err)) := Get sf id in
     match err with
     | Some err => (sf, m, Some (FetchingSecret err id))
     | None =>
         let '(secret, err) := Unmarshal_K8sSecret val K8sSecret_zero in
         match err with
         | Some err => (sf, m, Some (UnmarshalingSecret err id))
         | None => SecretInjections_range sf (S i) rest (<[name := secret]> m)
         end
     end).
Proof.
  intros Hn Hi Hfn Hfi. simpl.
  rewrite (Split_entry "=" (name, id)) by done. simpl.
  rewrite decide_False by (by destruct name).
  rewrite decide_False; [done|]. rewrite !string_length_0. tauto.
Qed.

(** The loop only ever assigns under the first part of an entry. *)
Lemma SecretInjections_range_lookup sf i l m name :
  Forall (λ e, (parts "=" e).1 ≠ name) l →
  (SecretInjections_range sf i l m).1.2 !! name = m !! name.
Proof.
  intros Hall. revert sf i m.
  induction Hall as [|x l Hx Hl IH]; intros sf i m; simpl; [done|].
  destruct (decide (x = EmptyString)); [apply IH|].
  destruct (decide (length (Split x "=") ≠ 2)); [done|].
  destruct (decide (_ ∨ _)); [done|].
  destruct (Get sf _) as [sf' [val [err|]]]; [done|].
  destruct (Unmarshal_K8sSecret _ _) as [secret [err|]]; [done|].
  rewrite IH. by rewrite lookup_insert_ne.
Qed.

(** C8: let the comma split of the input hold the entry [name=id],
    with both parts non-empty, after entries that the loop passes
    without an error, and let the fetcher answer [Get(id)] there.
    If [Get] returns an error, the call fails with the fetch error
    that wraps it and names [id]; if the bytes do not decode, the
    call fails with the decode error that wraps the cause and names
    [id]; if they decode, the record is assigned under [name], the
    loop goes on with the next entry, and [SecretInjections] holds
    the record under [name] at the end unless a later entry has the
    same name. *)
Theorem C8_ProcessSecretInjections_entry
    sf (injstr : string) (kc : K8sConfig) l1 l2 name id sf1 m1 sf2 val err :
  Split injstr "," = l1 ++ entry "=" (name, id) :: l2 →
  name ≠ EmptyString → id ≠ EmptyString →
  free_of "=" name → free_of "=" id →
  SecretInjections_range sf 0 l1 ∅ = (sf1, m1, None) →
  Get sf1 id = (sf2, (val, err)) →
  (∀ e, err = Some e →
        ProcessSecretInjections sf injstr kc =
          (sf2, set_SecretInjections (Some m1) kc, Some (FetchingSecret e id))) ∧
  (err = None → ∀ secret e,
        Unmarshal_K8sSecret val K8sSecret_zero = (secret, Some e) →
        ProcessSecretInjections sf injstr kc =
          (sf2, set_SecretInjections (Some m1) kc,
           Some (UnmarshalingSecret e id))) ∧
  (err = None → ∀ secret,
        Unmarshal_K8sSecret val K8sSecret_zero = (secret, None) →
        ProcessSecretInjections sf injstr kc =
          (let '(sf3, m, err) :=
             SecretInjections_range sf2 (S (length l1)) l2
               (<[name := secret]> m1) in
           (sf3, set_SecretInjections (Some m) kc, err)) ∧
        (Forall (λ e, (parts "=" e).1 ≠ name) l2 →
         ∃ m, SecretInjections (ProcessSecretInjections sf injstr kc).1.2
                = Some m ∧ m !! name = Some secret)).
Proof.
  intros Hs Hn Hi Hfn Hfi Hl1 Hget.
  assert (SecretInjections_range sf 0 (Split injstr ",") ∅ =
            match err with
            | Some err => (sf2, m1, Some (FetchingSecret err id))
            | None =>
                let '(secret, err) := Unmarshal_K8sSecret val K8sSecret_zero in
                match err with
                | Some err => (sf2, m1, Some (UnmarshalingSecret err id))
                | None =>
                    SecretInjections_range sf2 (S (length l1)) l2
                      (<[name := secret]> m1)
                end
            end) as Hrun.
  { rewrite Hs, SecretInjections_range_app, Hl1.
    rewrite SecretInjections_range_entry by done. by rewrite Hget. }
  unfold ProcessSecretInjections. rewrite Hrun. split_and!.
  - by intros e ->.
  - intros -> secret e ->. done.
  - intros -> secret ->. split; [done|]. intros Hl2.
    pose proof (SecretInjections_range_lookup sf2 (S (length l1)) l2
                  (<[name := secret]> m1) name Hl2) as Hk.
    destruct (SecretInjections_range sf2 (S (length l1)) l2
                (<[name := secret]> m1)) as [[sf3 m] err'].
    simpl in *. exists m. split; [done|]. by rewrite Hk, lookup_insert_eq.
Qed.

End ProcessSecretInjections_facts.

Lemma C8_ProcessSecretInjections_entry_witness :
  @ProcessSecretInjections fake_Json _ fake_fetcher
      ∅ "db=secret-id" K8sConfig_zero =
    (∅, set_SecretInjections (Some ∅) K8sConfig_zero,
     Some (FetchingSecret (External "secret not found") "secret-id")) ∧
  @ProcessSecretInjections fake_Json _ fake_fetcher
      {["secret-id" := bytes "{"]} "db=secret-id" K8sConfig_zero =
    ({["secret-id" := bytes "{"]}, set_SecretInjections (Some ∅) K8sConfig_zero,
     Some (UnmarshalingSecret (External "unexpected end of JSON input")
             "secret-id")) ∧
  ∃ m, SecretInjections
         (@ProcessSecretInjections fake_Json _ fake_fetcher
            {["secret-id" := bytes "{}"]} "db=secret-id" K8sConfig_zero).1.2
         = Some m ∧ m !! "db" = Some K8sSecret_zero.
Proof.
  split_and!.
  - apply (proj1 (@C8_ProcessSecretInjections_entry fake_Json _ fake_fetcher
                    ∅ "db=secret-id" K8sConfig_zero [] [] "db" "secret-id"
                    ∅ ∅ ∅ [] (Some (External "secret not found"))
                    eq_refl ltac:(discriminate) ltac:(discriminate)
                    eq_refl eq_refl eq_refl eq_refl)).
    reflexivity.
  - apply (proj1 (proj2 (@C8_ProcessSecretInjections_entry
                    fake_Json _ fake_fetcher
                    {["secret-id" := bytes "{"]} "db=secret-id" K8sConfig_zero
                    [] [] "db" "secret-id"
                    {["secret-id" := bytes "{"]} ∅ {["secret-id" := bytes "{"]}
                    (bytes "{") None
                    eq_refl ltac:(discriminate) ltac:(discriminate)
                    eq_refl eq_refl eq_refl eq_refl))
             eq_refl K8sSecret_zero).
    reflexivity.
  - apply (proj2 (proj2 (@C8_ProcessSecretInjections_entry
                    fake_Json _ fake_fetcher
                    {["secret-id" := bytes "{}"]} "db=secret-id" K8sConfig_zero
                    [] [] "db" "secret-id"
                    {["secret-id" := bytes "{}"]} ∅ {["secret-id" := bytes "{}"]}
                    (bytes "{}") None
                    eq_refl ltac:(discriminate) ltac:(discriminate)
                    eq_refl eq_refl eq_refl eq_refl))
             eq_refl K8sSecret_zero).
    + reflexivity.
    + constructor.
Defined.

(** ** [AminoConfig.Parse] *)
Section Parse_facts.
Context `{!Json}.

(** C9: [Parse] decodes the chart field first, then the deployment
    field, then the job field, and returns at the first decode error
    with the error that names the failing field and carries the
    cause; the receiver is then what the decodes up to and including
    the failing one left, so the mapping fields later in the order
    are the ones it held before and their raw strings play no part
    in the result.  When the three decodes succeed [Parse] returns
    no error. *)
Theorem C9_Parse_fail_fast (a : AminoConfig) v1 e1 :
  Unmarshal_map (bytes (HelmChartToRepoRaw a)) (HelmChartToRepo a) = (v1, e1) →
  (∀ err, e1 = Some err →
     Parse a = (set_HelmChartToRepo v1 a,
                Some (UnmarshalingHelmChartToRepo err)) ∧
     AminoDeploymentToRepo (Parse a).1 = AminoDeploymentToRepo a ∧
     AminoJobToRepo (Parse a).1 = AminoJobToRepo a) ∧
  (e1 = None → ∀ v2 e2,
     Unmarshal_map (bytes (AminoDeploymentToRepoRaw a))
       (AminoDeploymentToRepo a) = (v2, e2) →
     (∀ err, e2 = Some err →
        Parse a = (set_AminoDeploymentToRepo v2 (set_HelmChartToRepo v1 a),
                   Some (UnmarshalingAminoDeploymentToRepo err)) ∧
        AminoJobToRepo (Parse a).1 = AminoJobToRepo a) ∧
     (e2 = None → ∀ v3 e3,
        Unmarshal_map (bytes (AminoJobToRepoRaw a)) (AminoJobToRepo a)
          = (v3, e3) →
        Parse a =
          (set_AminoJobToRepo v3
             (set_AminoDeploymentToRepo v2 (set_HelmChartToRepo v1 a)),
           UnmarshalingAminoJobToRepo <$> e3))).
Proof.
  intros H1. split.
  - intros err ->. unfold Parse. rewrite H1. done.
  - intros -> v2 e2 H2. split.
    + intros err ->. unfold Parse. rewrite H1. simpl. rewrite H2. done.
    + intros -> v3 e3 H3. unfold Parse. rewrite H1. simpl. rewrite H2.
      simpl. rewrite H3. by destruct e3.
Qed.

End Parse_facts.

Lemma C9_Parse_fail_fast_witness :
  let amino chart deployment job :=
    {| HelmChartToRepoRaw := chart; HelmChartToRepo := None;
       AminoDeploymentToRepoRaw := deployment; AminoDeploymentToRepo := None;
       AminoJobToRepoRaw := job; AminoJobToRepo := None |} in
  let eof := External "unexpected end of JSON input" in
  (@Parse fake_Json (amino "" "{}" "{}") =
     (set_HelmChartToRepo None (amino "" "{}" "{}"),
      Some (UnmarshalingHelmChartToRepo eof)) ∧
   AminoDeploymentToRepo (@Parse fake_Json (amino "" "{}" "{}")).1 = None ∧
   AminoJobToRepo (@Parse fake_Json (amino "" "{}" "{}")).1 = None) ∧
  (@Parse fake_Json (amino "{}" "" "{}") =
     (set_AminoDeploymentToRepo None
        (set_HelmChartToRepo (Some ∅) (amino "{}" "" "{}")),
      Some (UnmarshalingAminoDeploymentToRepo eof)) ∧
   AminoJobToRepo (@Parse fake_Json (amino "{}" "" "{}")).1 = None) ∧
  @Parse fake_Json (amino "{}" "{}" "") =
    (set_AminoJobToRepo None
       (set_AminoDeploymentToRepo (Some ∅)
          (set_HelmChartToRepo (Some ∅) (amino "{}" "{}" ""))),
     UnmarshalingAminoJobToRepo <$> Some eof).
Proof.
  intros amino eof. split_and!.
  - apply (proj1 (proj1 (@C9_Parse_fail_fast fake_Json (amino "" "{}" "{}")
                           None (Some eof) eq_refl) eof eq_refl)).
  - apply (proj1 (proj2 (proj1 (@C9_Parse_fail_fast fake_Json
                                  (amino "" "{}" "{}") None (Some eof) eq_refl)
                           eof eq_refl))).
  - apply (proj2 (proj2 (proj1 (@C9_Parse_fail_fast fake_Json
                                  (amino "" "{}" "{}") None (Some eof) eq_refl)
                           eof eq_refl))).
  - apply (proj1 (proj1 (proj2 (@C9_Parse_fail_fast fake_Json
                                  (amino "{}" "" "{}") (Some ∅) None eq_refl)
                           eq_refl None (Some eof) eq_refl) eof eq_refl)).
  - apply (proj2 (proj1 (proj2 (@C9_Parse_fail_fast fake_Json
                                  (amino "{}" "" "{}") (Some ∅) None eq_refl)
                           eq_refl None (Some eof) eq_refl) eof eq_refl)).
  - apply (proj2 (proj2 (@C9_Parse_fail_fast fake_Json
                           (amino "{}" "{}" "") (Some ∅) None eq_refl)
                    eq_refl (Some ∅) None eq_refl) eq_refl None (Some eof) eq_refl).
Defined.

(** ** Further facts about splitting and assignment *)
Section more_split_facts.
Variable sep : ascii.

(** Splitting a string at one of its separators splits the two sides. *)
Lemma Split_app s t :
  Split (s +:+ String sep t) sep = Split s sep ++ Split t sep.
Proof.
  induction s as [|a s IH]; [apply Split_sep|].
  change (String a s +:+ String sep t) with (String a (s +:+ String sep t)).
  destruct (decide (a = sep)) as [->|Ha].
  - rewrite !Split_sep, IH. done.
  - rewrite !Split_other, IH by done. pose proof (Split_nonempty sep s).
    by destruct (Split s sep).
Qed.

Lemma Count_Join_other c es :
  c ≠ sep → Forall (free_of c) es → free_of c (Join es sep).
Proof.
  intros Hc Hall. induction Hall as [|e es He Hes IH]; [done|].
  destruct es as [|e' es]; [done|].
  change (Join (e :: e' :: es) sep) with (e +:+ String sep (Join (e' :: es) sep)).
  unfold free_of in *. rewrite Count_app, He. simpl.
  by rewrite decide_False.
Qed.

(** The two parts of an entry that splits in two: they rebuild the
    entry, hold no separator, and hold no other byte the entry does not
    hold. *)
Lemma two_parts_parts e :
  two_parts sep e →
  e = entry sep (parts sep e) ∧
  free_of sep (parts sep e).1 ∧ free_of sep (parts sep e).2 ∧
  ∀ c, free_of c e → free_of c (parts sep e).1 ∧ free_of c (parts sep e).2.
Proof.
  intros He. destruct (two_parts_entry _ _ He) as ([a b] & Heq & Ha & Hb).
  simpl in *. unfold parts. rewrite Heq, (Split_entry sep (a, b)) by done.
  simpl. split_and!; [done..|]. intros c. unfold free_of, entry. simpl.
  rewrite Count_app. simpl. lia.
Qed.

End more_split_facts.

Lemma good_prefix_all {A} (P : A → Prop) `{!∀ x, Decision (P x)} l :
  Forall P l → good_prefix P l = l.
Proof.
  induction 1 as [|x l Hx Hl IH]; simpl; [done|].
  by rewrite decide_True, IH.
Qed.

Lemma good_prefix_first {A} (P : A → Prop) `{!∀ x, Decision (P x)} l1 x l2 :
  Forall P l1 → ¬ P x → good_prefix P (l1 ++ x :: l2) = l1.
Proof.
  intros Hall Hx. induction Hall as [|y l Hy Hl IH]; simpl.
  - by rewrite decide_False.
  - by rewrite decide_True, IH.
Qed.

Lemma good_prefix_elem_of {A} (P : A → Prop) `{!∀ x, Decision (P x)} l x :
  x ∈ good_prefix P l → P x ∧ x ∈ l.
Proof.
  induction l as [|y l IH]; simpl; [by intros ?%elem_of_nil|].
  destruct (decide (P y)); [|by intros ?%elem_of_nil].
  intros [->|Hx]%elem_of_cons; [split; [done | by left]|].
  destruct (IH Hx). split; [done | by right].
Qed.

Lemma assign_all_union {V} (m : gmap string V) kvs :
  assign_all m kvs = assign_all ∅ kvs ∪ m.
Proof.
  induction kvs as [|kv kvs IH] using rev_ind.
  - simpl. by rewrite (left_id_L ∅ (∪)).
  - by rewrite !assign_all_snoc, IH, insert_union_l.
Qed.

(** What the assignments leave comes from the pairs assigned. *)
Lemma assign_all_elem_of {V} (kvs : list (string * V)) k v :
  assign_all ∅ kvs !! k = Some v → (k, v) ∈ kvs.
Proof.
  intros (l1 & l2 & -> & _)%assign_all_lookup.
  apply elem_of_app. right. by left.
Qed.

(** ** More on [ProcessLabels] *)

Lemma Labels_range_prefix labelsStr labels (m : gmap string string) :
  (Labels_range labelsStr labels m).1 =
    assign_all m (parts "=" <$> good_prefix (two_parts "=") labels).
Proof.
  destruct (first_failure (two_parts "=") labels)
    as [Hall|(l1 & e & l2 & -> & Hall & He)].
  - by rewrite Labels_range_two_parts, good_prefix_all.
  - by rewrite Labels_range_first_malformed, good_prefix_first.
Qed.

Lemma ProcessLabels_Labels labelsStr kc :
  Labels (ProcessLabels labelsStr kc).1 =
    Some (assign_all ∅
            (parts "=" <$> good_prefix (two_parts "=") (Split labelsStr ","))).
Proof.
  rewrite ProcessLabels_unfold. simpl. by rewrite Labels_range_prefix.
Qed.

(** X1: [ProcessLabels] returns no error exactly when every entry of
    the comma split holds exactly one [=]; an error it returns is the
    malformed-label error of an entry of the input that does not. *)
Theorem X1_ProcessLabels_succeeds_iff (labelsStr : string) (kc : K8sConfig) :
  ((ProcessLabels labelsStr kc).2 = None ↔
     Forall (λ e, Count e "=" = 1) (Split labelsStr ",")) ∧
  match (ProcessLabels labelsStr kc).2 with
  | None => True
  | Some err =>
      ∃ e, err = MalformedLabel e labelsStr ∧
           e ∈ Split labelsStr "," ∧ Count e "=" ≠ 1
  end.
Proof.
  rewrite ProcessLabels_unfold. simpl.
  destruct (first_failure (two_parts "=") (Split labelsStr ","))
    as [Hall|(l1 & e & l2 & Hs & Hall & He)].
  - rewrite Labels_range_two_parts by done. simpl. split; [|done].
    split; [intros _|done]. eapply Forall_impl; [exact Hall|].
    intros e. apply two_parts_Count.
  - rewrite Hs, Labels_range_first_malformed by done. simpl.
    rewrite <- Hs. split.
    + split; [done|]. intros Hc. destruct He. apply two_parts_Count.
      rewrite Forall_forall in Hc. apply Hc. rewrite Hs.
      apply elem_of_app. right. by left.
    + exists e. split_and!; [done| |by rewrite <- two_parts_Count].
      rewrite Hs. apply elem_of_app. right. by left.
Qed.

(** X2: whether or not [ProcessLabels] fails, [Labels] ends up holding
    the assignments of the entries before the first malformed one and
    nothing else: a failed call leaves the labels parsed so far in the
    field, and whatever the field held before the call is gone. *)
Theorem X2_ProcessLabels_leaves_prefix (labelsStr : string) (kc : K8sConfig) :
  Labels (ProcessLabels labelsStr kc).1 =
    Some (assign_all ∅
            (parts "=" <$> good_prefix (two_parts "=") (Split labelsStr ","))).
Proof. apply ProcessLabels_Labels. Qed.

(** X3: after [ProcessLabels], failed or not, no key and no value of
    [Labels] holds a [,] or a [=], and each pair in it is the two parts
    of an entry of the input. *)
Theorem X3_ProcessLabels_no_separators
    (labelsStr : string) (kc : K8sConfig) m k v :
  Labels (ProcessLabels labelsStr kc).1 = Some m →
  m !! k = Some v →
  (∃ e, e ∈ Split labelsStr "," ∧ Split e "=" = [k; v]) ∧
  (free_of "," k ∧ free_of "=" k) ∧ (free_of "," v ∧ free_of "=" v).
Proof.
  rewrite ProcessLabels_Labels. intros [= <-] Hkv.
  apply assign_all_elem_of, list_elem_of_fmap in Hkv as (e & Hp & He).
  apply good_prefix_elem_of in He as [H2 Hin].
  destruct (two_parts_parts "=" e H2) as (_ & Hf1 & Hf2 & Hc).
  assert (free_of "," e) as Hfe.
  { pose proof (Split_Forall_free "," labelsStr) as Hall.
    rewrite Forall_forall in Hall. by apply Hall. }
  destruct (Hc _ Hfe) as [Hc1 Hc2]. rewrite <- Hp in *. simpl in *.
  split_and!; try done. exists e. split; [done|].
  destruct (length_two _ H2) as (a & b & Hab). unfold parts in Hp.
  rewrite Hab in *. simpl in Hp. congruence.
Qed.

Lemma X3_ProcessLabels_no_separators_witness :
  (∃ e, e ∈ Split "a=b,c=d,potato" "," ∧ Split e "=" = ["c"; "d"]) ∧
  (free_of "," "c" ∧ free_of "=" "c") ∧ (free_of "," "d" ∧ free_of "=" "d").
Proof.
  apply (X3_ProcessLabels_no_separators "a=b,c=d,potato" K8sConfig_zero
           (<["c" := "d"]> {["a" := "b"]}) "c" "d"); reflexivity.
Defined.

Lemma ProcessLabels_None_inv labelsStr kc :
  (ProcessLabels labelsStr kc).2 = None →
  Forall (two_parts "=") (Split labelsStr ",").
Proof.
  rewrite ProcessLabels_unfold. simpl.
  destruct (first_failure (two_parts "=") (Split labelsStr ","))
    as [?|(l1 & e & l2 & Hs & Hall & He)]; [done|].
  by rewrite Hs, Labels_range_first_malformed.
Qed.

(** X4: labels of two inputs joined by a comma.  When [ProcessLabels]
    succeeds on [s] and on [t], on whatever receivers, it succeeds on
    [s,t], and [Labels] then holds the labels of [t] together with
    those of [s] that [t] does not rebind, the other fields being
    untouched; when it fails on [s] it fails on [s,t] at the same
    entry. *)
Theorem X4_ProcessLabels_joined (s t : string) (kc1 kc2 kc : K8sConfig) :
  (∀ m1 m2,
     (ProcessLabels s kc1).2 = None →
     Labels (ProcessLabels s kc1).1 = Some m1 →
     (ProcessLabels t kc2).2 = None →
     Labels (ProcessLabels t kc2).1 = Some m2 →
     (ProcessLabels (s +:+ String "," t) kc).2 = None ∧
     Labels (ProcessLabels (s +:+ String "," t) kc).1 = Some (m2 ∪ m1) ∧
     ProcessLabels (s +:+ String "," t) kc =
       (set_Labels (Some (m2 ∪ m1)) kc, None)) ∧
  (∀ e, (ProcessLabels s kc1).2 = Some (MalformedLabel e s) →
        (ProcessLabels (s +:+ String "," t) kc).2 =
          Some (MalformedLabel e (s +:+ String "," t))).
Proof.
  split.
  - intros m1 m2 Hs%ProcessLabels_None_inv H1 Ht%ProcessLabels_None_inv H2.
    rewrite ProcessLabels_Labels, good_prefix_all in H1 by done.
    rewrite ProcessLabels_Labels, good_prefix_all in H2 by done.
    injection H1 as <-. injection H2 as <-.
    assert (ProcessLabels (s +:+ String "," t) kc =
              (set_Labels
                 (Some (assign_all ∅ (parts "=" <$> Split t ",")
                        ∪ assign_all ∅ (parts "=" <$> Split s ","))) kc, None))
      as ->; [|done].
    rewrite ProcessLabels_unfold, Split_app, Labels_range_two_parts
      by (by apply Forall_app).
    simpl. rewrite fmap_app, assign_all_app.
    by rewrite (assign_all_union (assign_all _ _)).
  - intros e. rewrite !ProcessLabels_unfold, Split_app. simpl.
    destruct (first_failure (two_parts "=") (Split s ","))
      as [Hall|(l1 & e' & l2 & Hs & Hall & He)].
    + by rewrite Labels_range_two_parts.
    + rewrite Hs, <- app_assoc. simpl.
      rewrite !Labels_range_first_malformed by done. simpl. congruence.
Qed.

Lemma X4_ProcessLabels_joined_witness :
  ((ProcessLabels "a=1,b=2,a=3" K8sConfig_zero).2 = None ∧
   Labels (ProcessLabels "a=1,b=2,a=3" K8sConfig_zero).1 =
     Some ({["a" := "3"]} ∪ <["b" := "2"]> {["a" := "1"]}) ∧
   ProcessLabels "a=1,b=2,a=3" K8sConfig_zero =
     (set_Labels (Some ({["a" := "3"]} ∪ <["b" := "2"]> {["a" := "1"]}))
        K8sConfig_zero, None)) ∧
  (ProcessLabels "a=1,potato,b=2" K8sConfig_zero).2 =
    Some (MalformedLabel "potato" "a=1,potato,b=2").
Proof.
  split.
  - apply (proj1 (X4_ProcessLabels_joined "a=1,b=2" "a=3"
                    K8sConfig_zero K8sConfig_zero K8sConfig_zero));
      reflexivity.
  - apply (proj2 (X4_ProcessLabels_joined "a=1,potato" "b=2"
                    K8sConfig_zero K8sConfig_zero K8sConfig_zero)).
    reflexivity.
Defined.

(** X5: a successful [ProcessLabels] leaves at least one label: the
    last entry of the input is in [Labels] under its key, so the map
    is never empty after a call that returned no error. *)
Theorem X5_ProcessLabels_at_least_one_label
    (labelsStr : string) (kc kc' : K8sConfig) :
  ProcessLabels labelsStr kc = (kc', None) →
  ∃ m e,
    Labels kc' = Some m ∧ m ≠ ∅ ∧
    last (Split labelsStr ",") = Some e ∧
    m !! (parts "=" e).1 = Some (parts "=" e).2.
Proof.
  rewrite ProcessLabels_unfold. intros [= <- Herr].
  destruct (first_failure (two_parts "=") (Split labelsStr ","))
    as [Hall|(l1 & e & l2 & Hs & Hall & He)].
  - rewrite Labels_range_two_parts by done. simpl.
    pose proof (Split_nonempty "," labelsStr) as Hne.
    destruct (Split labelsStr ",") as [|x l] using rev_ind; [done|].
    exists (assign_all ∅ (parts "=" <$> (l ++ [x]))), x.
    rewrite last_snoc, fmap_app. simpl. rewrite assign_all_snoc.
    split_and!; [done | apply insert_non_empty | done | apply lookup_insert_eq].
  - rewrite Hs, Labels_range_first_malformed in Herr by done. discriminate.
Qed.

Lemma X5_ProcessLabels_at_least_one_label_witness :
  ∃ m e,
    Labels (set_Labels (Some (<["b" := "2"]> {["a" := "1"]})) K8sConfig_zero)
      = Some m ∧ m ≠ ∅ ∧
    last (Split "a=1,b=2" ",") = Some e ∧
    m !! (parts "=" e).1 = Some (parts "=" e).2.
Proof.
  apply (X5_ProcessLabels_at_least_one_label "a=1,b=2" K8sConfig_zero).
  reflexivity.
Defined.

(** ** More on [ProcessPrivilegedRepos] *)

(** X6: whatever [ProcessPrivilegedRepos] returns, joining the
    whitelist it leaves with commas gives back the input string. *)
Theorem X6_ProcessPrivilegedRepos_join (repostr : string) (kc : K8sConfig) :
  Join (PrivilegedRepoWhitelist (ProcessPrivilegedRepos repostr kc).1) ","
    = repostr.
Proof. unfold ProcessPrivilegedRepos. simpl. apply Join_Split. Qed.

(** X7: for a non-empty list of tokens that hold no [,] and exactly one
    [/] each, [ProcessPrivilegedRepos] on the tokens joined with commas
    succeeds and the whitelist is the list of tokens. *)
Theorem X7_ProcessPrivilegedRepos_of_join (prs : list string) (kc : K8sConfig) :
  prs ≠ [] →
  Forall (λ pr, free_of "," pr ∧ Count pr "/" = 1) prs →
  ProcessPrivilegedRepos (Join prs ",") kc =
    (set_PrivilegedRepoWhitelist prs kc, None).
Proof.
  intros Hne Hall. unfold ProcessPrivilegedRepos.
  rewrite Split_Join; [|done|by eapply Forall_impl; [exact Hall|intros ? []]].
  simpl. f_equal. apply PrivilegedRepos_range_None.
  eapply Forall_impl; [exact Hall|]. intros pr [_ H]. by apply two_parts_Count.
Qed.

Lemma X7_ProcessPrivilegedRepos_of_join_witness :
  ProcessPrivilegedRepos (Join ["org/repo1"; "org/repo2"] ",") K8sConfig_zero =
    (set_PrivilegedRepoWhitelist ["org/repo1"; "org/repo2"] K8sConfig_zero, None).
Proof.
  apply (X7_ProcessPrivilegedRepos_of_join ["org/repo1"; "org/repo2"]).
  - discriminate.
  - repeat constructor.
Defined.

Lemma PrivilegedRepos_range_empty_token i prs :
  EmptyString ∈ prs → is_Some (PrivilegedRepos_range i prs).
Proof.
  intros Hin. destruct (PrivilegedRepos_range i prs) eqn:Hr; [done|].
  apply PrivilegedRepos_range_None in Hr. rewrite Forall_forall in Hr.
  by specialize (Hr _ Hin).
Qed.

(** X8: [ProcessPrivilegedRepos] has no tolerance for an empty token:
    the empty string, an input that ends or starts with a comma, and
    an input with two commas in a row are all rejected. *)
Theorem X8_ProcessPrivilegedRepos_empty_token (s t : string) (kc : K8sConfig) :
  is_Some (ProcessPrivilegedRepos "" kc).2 ∧
  is_Some (ProcessPrivilegedRepos (s +:+ ",") kc).2 ∧
  is_Some (ProcessPrivilegedRepos ("," +:+ s) kc).2 ∧
  is_Some (ProcessPrivilegedRepos (s +:+ ",," +:+ t) kc).2.
Proof.
  assert (∀ r, EmptyString ∈ Split r "," →
               is_Some (ProcessPrivilegedRepos r kc).2) as Hrej.
  { intros r Hin. by apply PrivilegedRepos_range_empty_token. }
  split_and!; apply Hrej.
  - by left.
  - change (s +:+ ",") with (s +:+ String "," EmptyString).
    rewrite Split_app. apply elem_of_app. right. by left.
  - change ("," +:+ s) with (String "," s). rewrite Split_sep. by left.
  - change (s +:+ ",," +:+ t) with (s +:+ String "," (String "," t)).
    rewrite Split_app, Split_sep. apply elem_of_app. right. by left.
Qed.

(** ** More on [ProcessGroupBindings] *)

Lemma GroupBindings_range_prefix i gbs (m : gmap string string) :
  (GroupBindings_range i gbs m).1 =
    assign_all m (bound_pairs (good_prefix bindable gbs)) ∧
  ((GroupBindings_range i gbs m).2 = None ↔ Forall bindable gbs).
Proof.
  revert i m. induction gbs as [|gb gbs IH]; intros i m; simpl.
  - split; [done|]. split; [constructor | done].
  - rewrite Forall_cons. destruct (decide (gb = EmptyString)) as [->|Hne].
    + assert (bindable EmptyString) as Hb by (by left).
      rewrite decide_True by done. unfold bound_pairs.
      rewrite filter_cons_False by (intros H; by apply H).
      destruct (IH (S i) m) as [-> IH2]. split; [done | tauto].
    + destruct (decide (two_nontrivial_parts "=" gb)) as [Hgb|Hgb].
      * assert (bindable gb) as Hb by (by right).
        destruct (GroupBindings_body_ok i gb m Hgb) as (-> & _).
        rewrite decide_True by done. unfold bound_pairs.
        rewrite filter_cons_True by done.
        destruct (IH (S i) (<[(parts "=" gb).1 := (parts "=" gb).2]> m))
          as [-> IH2].
        split; [done | tauto].
      * assert (¬ bindable gb) as Hb by (unfold bindable; tauto).
        rewrite GroupBindings_body_bad by done.
        rewrite (decide_False (P := bindable gb)) by done. simpl.
        split; [done|]. split; [done | tauto].
Qed.

(** X9: [ProcessGroupBindings] returns no error exactly when every
    entry of the comma split is empty or splits on [=] in two non-empty
    parts; and, failed or not, [GroupBindings] ends up holding the
    assignments of the non-empty entries before the first rejected one
    and nothing else. *)
Theorem X9_ProcessGroupBindings_succeeds_iff (gbstr : string) (kc : K8sConfig) :
  ((ProcessGroupBindings gbstr kc).2 = None ↔
     Forall bindable (Split gbstr ",")) ∧
  GroupBindings (ProcessGroupBindings gbstr kc).1 =
    Some (assign_all ∅ (bound_pairs (good_prefix bindable (Split gbstr ",")))).
Proof.
  rewrite ProcessGroupBindings_unfold. simpl.
  destruct (GroupBindings_range_prefix 0 (Split gbstr ",") ∅) as [-> ->].
  done.
Qed.

(** X10: a comma at the end of the input changes nothing:
    [ProcessGroupBindings] returns the same bindings and the same
    error, offset included, for [s,] as for [s]. *)
Theorem X10_ProcessGroupBindings_trailing_comma (gbstr : string) (kc : K8sConfig) :
  ProcessGroupBindings (gbstr +:+ ",") kc = ProcessGroupBindings gbstr kc.
Proof.
  change (gbstr +:+ ",") with (gbstr +:+ String "," EmptyString).
  unfold ProcessGroupBindings.
  rewrite !GroupBindings_range_each, Split_app, imap_app, filter_app.
  simpl. rewrite filter_cons_False by (intros H; by apply H).
  by rewrite filter_nil, app_nil_r.
Qed.

Lemma filter_all {A} (P : A → Prop) `{!∀ x, Decision (P x)} (l : list A) :
  Forall P l → filter P l = l.
Proof.
  induction 1 as [|x l Hx Hl IH]; [done|].
  by rewrite filter_cons_True, IH.
Qed.

Lemma entry_nonempty sep kv : entry sep kv ≠ EmptyString.
Proof. unfold entry. by destruct kv.1. Qed.

(** X11: for every list of pairs, the empty one included, whose keys
    and values are non-empty and hold neither [,] nor [=],
    [ProcessGroupBindings] on the comma-joined [group=role] entries
    succeeds and [GroupBindings] is the in-order assignment of the
    pairs. *)
Theorem X11_ProcessGroupBindings_of_join
    (kvs : list (string * string)) (kc : K8sConfig) :
  Forall (λ kv, (kv.1 ≠ EmptyString ∧ free_of "," kv.1 ∧ free_of "=" kv.1) ∧
                (kv.2 ≠ EmptyString ∧ free_of "," kv.2 ∧ free_of "=" kv.2)) kvs →
  (ProcessGroupBindings (Join (entry "=" <$> kvs) ",") kc).2 = None ∧
  GroupBindings (ProcessGroupBindings (Join (entry "=" <$> kvs) ",") kc).1 =
    Some (assign_all ∅ kvs) ∧
  ProcessGroupBindings (Join (entry "=" <$> kvs) ",") kc =
    (set_GroupBindings (Some (assign_all ∅ kvs)) kc, None).
Proof.
  intros Hwf.
  assert (ProcessGroupBindings (Join (entry "=" <$> kvs) ",") kc =
            (set_GroupBindings (Some (assign_all ∅ kvs)) kc, None)) as ->;
    [|done].
  destruct (decide (kvs = [])) as [->|Hne]; [reflexivity|].
  rewrite ProcessGroupBindings_unfold, Split_Join.
  - assert (Forall (two_nontrivial_parts "=") (entry "=" <$> kvs)) as Hok.
    { apply Forall_fmap. eapply Forall_impl; [exact Hwf|].
      intros kv [(? & _ & ?) (? & _ & ?)]. simpl.
      unfold two_nontrivial_parts. by rewrite Split_entry. }
    destruct (GroupBindings_range_prefix 0 (entry "=" <$> kvs) ∅) as [-> He].
    rewrite (proj2 He)
      by (eapply Forall_impl; [exact Hok|]; intros ??; by right).
    rewrite good_prefix_all
      by (eapply Forall_impl; [exact Hok|]; intros ??; by right).
    assert (bound_pairs (entry "=" <$> kvs) = kvs) as ->; [|done].
    unfold bound_pairs.
    rewrite filter_all by (apply Forall_fmap, Forall_true; intros kv;
                           apply entry_nonempty).
    rewrite <- list_fmap_compose. rewrite <- (list_fmap_id kvs) at 2.
    apply Forall_fmap_ext_1. eapply Forall_impl; [exact Hwf|].
    intros [k v] [(? & _ & ?) (? & _ & ?)]. unfold parts. simpl.
    by rewrite Split_entry.
  - by destruct kvs.
  - apply Forall_fmap. eapply Forall_impl; [exact Hwf|].
    intros kv [(_ & ? & _) (_ & ? & _)]. by apply Count_entry_other.
Qed.

Lemma X11_ProcessGroupBindings_of_join_witness :
  (ProcessGroupBindings (Join (entry "=" <$> [("g", "r"); ("h", "s")]) ",")
     K8sConfig_zero).2 = None ∧
  GroupBindings
    (ProcessGroupBindings (Join (entry "=" <$> [("g", "r"); ("h", "s")]) ",")
       K8sConfig_zero).1 = Some (assign_all ∅ [("g", "r"); ("h", "s")]) ∧
  ProcessGroupBindings (Join (entry "=" <$> [("g", "r"); ("h", "s")]) ",")
      K8sConfig_zero =
    (set_GroupBindings (Some (assign_all ∅ [("g", "r"); ("h", "s")]))
       K8sConfig_zero, None).
Proof.
  apply (X11_ProcessGroupBindings_of_join [("g", "r"); ("h", "s")]
           K8sConfig_zero).
  repeat first [discriminate | constructor].
Defined.

(** ** The parsers together *)




(** ** More on [ProcessSecretInjections] *)

Lemma two_nontrivial_parts_tests e :
  length (Split e "=") = 2 →
  ¬ (String.length (Split e "=" !!! 0) = 0 ∨ String.length (Split e "=" !!! 1) = 0) →
  two_nontrivial_parts "=" e.
Proof.
  unfold two_nontrivial_parts. intros (a & b & ->)%length_two. simpl.
  rewrite !string_length_0. tauto.
Qed.

Section ProcessSecretInjections_more.
Context `{!Json} `{!SecretFetcher F}.
Implicit Types (sf : F) (m : gmap string K8sSecret).

(** One turn of the loop, by the kind of entry. *)
Lemma SecretInjections_range_cons sf i e rest m :
  SecretInjections_range sf i (e :: rest) m =
    if decide (e = EmptyString) then SecretInjections_range sf (S i) rest m
    else if decide (two_nontrivial_parts "=" e) then
      let '(sf, (val, err)) := Get sf (parts "=" e).2 in
      match err with
      | Some err => (sf, m, Some (FetchingSecret err (parts "=" e).2))
      | None =>
          let '(secret, err) := Unmarshal_K8sSecret val K8sSecret_zero in
          match err with
          | Some err => (sf, m, Some (UnmarshalingSecret err (parts "=" e).2))
          | None =>
              SecretInjections_range sf (S i) rest
                (<[(parts "=" e).1 := secret]> m)
          end
      end
    else (sf, m, Some (if decide (two_parts "=" e)
                       then EmptySecretInjection i e
                       else MalformedSecretInjection i e)).
Proof.
  simpl. destruct (decide (e = EmptyString)); [done|].
  unfold two_parts.
  destruct (decide (length (Split e "=") ≠ 2)) as [Hl|Hl].
  - rewrite decide_False
      by (intros ?%two_nontrivial_two_parts; by apply Hl).
    by rewrite decide_False.
  - assert (length (Split e "=") = 2) as Hl2 by lia.
    rewrite (decide_True (P := length (Split e "=") = 2)) by done.
    destruct (decide (_ ∨ _)) as [He|He].
    + rewrite decide_False; [done|]. unfold two_nontrivial_parts.
      destruct (length_two _ Hl2) as (a & b & Hab). rewrite Hab in *.
      simpl in He. rewrite !string_length_0 in He. tauto.
    + rewrite decide_True by (by apply two_nontrivial_parts_tests). done.
Qed.

Lemma ProcessSecretInjections_unfold sf injstr kc :
  ProcessSecretInjections sf injstr kc =
    ((SecretInjections_range sf 0 (Split injstr ",") ∅).1.1,
     set_SecretInjections
       (Some (SecretInjections_range sf 0 (Split injstr ",") ∅).1.2) kc,
     (SecretInjections_range sf 0 (Split injstr ",") ∅).2).
Proof.
  unfold ProcessSecretInjections.
  by destruct (SecretInjections_range _ _ _ _) as [[??]?].
Qed.

(** X14: an entry is checked before anything is fetched for it.  When
    the entries before [e] pass without an error and [e] is neither
    empty nor a pair of two non-empty parts, the call fails with the
    error of [e], which carries its offset and text, the fetcher is as
    the earlier entries left it, and [SecretInjections] holds what they
    assigned. *)
Theorem X14_ProcessSecretInjections_checks_first
    sf (injstr : string) (kc : K8sConfig) l1 e l2 sf1 m1 :
  Split injstr "," = l1 ++ e :: l2 →
  SecretInjections_range sf 0 l1 ∅ = (sf1, m1, None) →
  e ≠ EmptyString → ¬ two_nontrivial_parts "=" e →
  (ProcessSecretInjections sf injstr kc).2 =
    Some (if decide (two_parts "=" e)
          then EmptySecretInjection (length l1) e
          else MalformedSecretInjection (length l1) e) ∧
  (ProcessSecretInjections sf injstr kc).1.1 = sf1 ∧
  SecretInjections (ProcessSecretInjections sf injstr kc).1.2 = Some m1 ∧
  ProcessSecretInjections sf injstr kc =
    (sf1, set_SecretInjections (Some m1) kc,
     Some (if decide (two_parts "=" e)
           then EmptySecretInjection (length l1) e
           else MalformedSecretInjection (length l1) e)).
Proof.
  intros Hs Hl1 Hne Hbad.
  assert (ProcessSecretInjections sf injstr kc =
            (sf1, set_SecretInjections (Some m1) kc,
             Some (if decide (two_parts "=" e)
                   then EmptySecretInjection (length l1) e
                   else MalformedSecretInjection (length l1) e))) as ->;
    [|done].
  rewrite ProcessSecretInjections_unfold, Hs, SecretInjections_range_app, Hl1.
  rewrite SecretInjections_range_cons.
  rewrite (decide_False (P := e = EmptyString)) by done.
  by rewrite (decide_False (P := two_nontrivial_parts "=" e)) by done.
Qed.

(** X15: an input without a non-empty entry, the empty string or
    commas alone, succeeds with an empty [SecretInjections] and the
    fetcher is not used. *)
Theorem X15_ProcessSecretInjections_nothing_to_fetch
    sf (injstr : string) (kc : K8sConfig) :
  Forall (λ e, e = EmptyString) (Split injstr ",") →
  (ProcessSecretInjections sf injstr kc).2 = None ∧
  (ProcessSecretInjections sf injstr kc).1.1 = sf ∧
  SecretInjections (ProcessSecretInjections sf injstr kc).1.2 = Some ∅ ∧
  ProcessSecretInjections sf injstr kc =
    (sf, set_SecretInjections (Some ∅) kc, None).
Proof.
  intros Hall.
  assert (ProcessSecretInjections sf injstr kc =
            (sf, set_SecretInjections (Some ∅) kc, None)) as ->; [|done].
  rewrite ProcessSecretInjections_unfold.
  assert (∀ i, SecretInjections_range sf i (Split injstr ",") ∅ = (sf, ∅, None))
    as ->; [|done].
  induction Hall as [|e l -> Hl IH]; intros i; [done|].
  rewrite SecretInjections_range_cons. by rewrite decide_True.
Qed.

Lemma SecretInjections_range_keys (Q : string → Prop) sf i l m :
  (∀ e, e ∈ l → two_nontrivial_parts "=" e → Q (parts "=" e).1) →
  (∀ k secret, m !! k = Some secret → Q k) →
  ∀ k secret, (SecretInjections_range sf i l m).1.2 !! k = Some secret → Q k.
Proof.
  revert sf i m. induction l as [|e l IH]; intros sf i m Hl Hm; [done|].
  assert (∀ x, x ∈ l → two_nontrivial_parts "=" x → Q (parts "=" x).1) as Hl'.
  { intros x Hx. apply Hl. by right. }
  rewrite SecretInjections_range_cons.
  destruct (decide (e = EmptyString)); [by apply IH|].
  destruct (decide (two_nontrivial_parts "=" e)) as [He|He]; [|done].
  destruct (Get sf _) as [sf' [val [err|]]]; [done|].
  destruct (Unmarshal_K8sSecret _ _) as [secret [err|]]; [done|].
  apply IH; [done|]. intros k s.
  destruct (decide ((parts "=" e).1 = k)) as [<-|Hk].
  - intros _. apply Hl; [by left | done].
  - rewrite lookup_insert_ne by done. apply Hm.
Qed.

(** X16: after [ProcessSecretInjections], failed or not, every key of
    [SecretInjections] is the name of an entry [name=id] of the input
    with both parts non-empty; so no key is empty and none holds a [,]
    or a [=]. *)
Theorem X16_ProcessSecretInjections_keys
    sf (injstr : string) (kc : K8sConfig) m k secret :
  SecretInjections (ProcessSecretInjections sf injstr kc).1.2 = Some m →
  m !! k = Some secret →
  (∃ id, id ≠ EmptyString ∧ entry "=" (k, id) ∈ Split injstr ",") ∧
  k ≠ EmptyString ∧ free_of "," k ∧ free_of "=" k.
Proof.
  rewrite ProcessSecretInjections_unfold. simpl. intros [= <-] Hk.
  revert k secret Hk. apply SecretInjections_range_keys; [|done].
  intros e Hin He.
  pose proof (two_nontrivial_two_parts _ _ He) as H2.
  destruct (two_parts_parts "=" e H2) as (Heq & Hf1 & _ & Hc).
  assert (free_of "," e) as Hfe.
  { pose proof (Split_Forall_free "," injstr) as Hall.
    rewrite Forall_forall in Hall. by apply Hall. }
  destruct (Hc _ Hfe) as [Hc1 _].
  unfold two_nontrivial_parts, parts in *.
  destruct (Split e "=") as [|a [|b [|? ?]]]; try done. simpl in *.
  destruct He as [Ha Hb]. split_and!; try done.
  exists b. split; [done|]. by rewrite <- Heq.
Qed.

End ProcessSecretInjections_more.

Lemma X14_ProcessSecretInjections_checks_first_witness :
  (@ProcessSecretInjections fake_Json _ fake_fetcher
     {["id1" := bytes "{}"]} "a=id1,=x,b" K8sConfig_zero).2 =
    Some (if decide (two_parts "=" "=x")
          then EmptySecretInjection 1 "=x"
          else MalformedSecretInjection 1 "=x") ∧
  (@ProcessSecretInjections fake_Json _ fake_fetcher
     {["id1" := bytes "{}"]} "a=id1,=x,b" K8sConfig_zero).1.1 =
    {["id1" := bytes "{}"]} ∧
  SecretInjections
    (@ProcessSecretInjections fake_Json _ fake_fetcher
       {["id1" := bytes "{}"]} "a=id1,=x,b" K8sConfig_zero).1.2 =
    Some {["a" := K8sSecret_zero]} ∧
  @ProcessSecretInjections fake_Json _ fake_fetcher
      {["id1" := bytes "{}"]} "a=id1,=x,b" K8sConfig_zero =
    ({["id1" := bytes "{}"]},
     set_SecretInjections (Some {["a" := K8sSecret_zero]}) K8sConfig_zero,
     Some (if decide (two_parts "=" "=x")
           then EmptySecretInjection 1 "=x"
           else MalformedSecretInjection 1 "=x")).
Proof.
  apply (@X14_ProcessSecretInjections_checks_first fake_Json _ fake_fetcher
           {["id1" := bytes "{}"]} "a=id1,=x,b" K8sConfig_zero
           ["a=id1"] "=x" ["b"]).
  - reflexivity.
  - reflexivity.
  - discriminate.
  - intros [H _]. by apply H.
Defined.

Lemma X15_ProcessSecretInjections_nothing_to_fetch_witness :
  (@ProcessSecretInjections fake_Json _ fake_fetcher
     {["id1" := bytes "{}"]} ",," K8sConfig_zero).2 = None ∧
  (@ProcessSecretInjections fake_Json _ fake_fetcher
     {["id1" := bytes "{}"]} ",," K8sConfig_zero).1.1 =
    {["id1" := bytes "{}"]} ∧
  SecretInjections
    (@ProcessSecretInjections fake_Json _ fake_fetcher
       {["id1" := bytes "{}"]} ",," K8sConfig_zero).1.2 = Some ∅ ∧
  @ProcessSecretInjections fake_Json _ fake_fetcher
      {["id1" := bytes "{}"]} ",," K8sConfig_zero =
    ({["id1" := bytes "{}"]},
     set_SecretInjections (Some ∅) K8sConfig_zero, None).
Proof.
  apply (@X15_ProcessSecretInjections_nothing_to_fetch fake_Json _ fake_fetcher
           {["id1" := bytes "{}"]} ",," K8sConfig_zero).
  repeat constructor.
Defined.

Lemma X16_ProcessSecretInjections_keys_witness :
  (∃ id, id ≠ EmptyString ∧ entry "=" ("db", id) ∈ Split "db=id1,x" ",") ∧
  "db" ≠ EmptyString ∧ free_of "," "db" ∧ free_of "=" "db".
Proof.
  apply (@X16_ProcessSecretInjections_keys fake_Json _ fake_fetcher
           {["id1" := bytes "{}"]} "db=id1,x" K8sConfig_zero
           {["db" := K8sSecret_zero]} "db" K8sSecret_zero); reflexivity.
Defined.

Section recording_facts.
Context `{!Json} {F : Type} (fetcher : SecretFetcher F).

Lemma recording_Get (s : F) (log : list string) id :
  @Get _ (recording fetcher) (s, log) id =
    (((@Get F fetcher s id).1, log ++ [id]), (@Get F fetcher s id).2).
Proof.
  unfold Get at 1. unfold recording. simpl. by destruct (Get s id).
Qed.

Lemma stops_after_cons i e l1 l2 err :
  stops_after (S i) l1 l2 err → stops_after i (e :: l1) l2 err.
Proof.
  destruct err as [[]|]; simpl; try done.
  - intros (l3 & -> & -> & ?). exists l3. split_and!; [done | lia | tauto..].
  - intros (l3 & -> & -> & ?). exists l3. split_and!; [done | lia | tauto..].
  - intros (l0 & e' & -> & ?). by exists (e :: l0), e'.
  - intros (l0 & e' & -> & ?). by exists (e :: l0), e'.
Qed.

Lemma SecretInjections_range_recording l (s : F) log i m :
  let r := @SecretInjections_range _ _ (recording fetcher) (s, log) i l m in
  let p := @SecretInjections_range _ _ fetcher s i l m in
  (r.1.1.1 = p.1.1 ∧ r.1.2 = p.1.2 ∧ r.2 = p.2) ∧
  ∃ l1 l2,
    l = l1 ++ l2 ∧ Forall bindable l1 ∧
    r.1.1.2 = log ++ (bound_pairs l1).*2 ∧
    stops_after i l1 l2 r.2.
Proof.
  revert s log i m. induction l as [|e l IH]; intros s log i m.
  { cbv zeta. simpl. split; [done|]. exists [], [].
    split_and!; [done | constructor | by rewrite app_nil_r | done]. }
  cbv zeta. rewrite !SecretInjections_range_cons.
  destruct (decide (e = EmptyString)) as [->|Hne].
  { destruct (IH s log (S i) m) as (Hsame & l1 & l2 & -> & Hb & Hlog & Hstop).
    split; [done|]. exists (EmptyString :: l1), l2.
    split_and!; [done | constructor; [by left | done] | | by apply stops_after_cons].
    unfold bound_pairs. by rewrite filter_cons_False by (intros Hx; by apply Hx). }
  destruct (decide (two_nontrivial_parts "=" e)) as [He|He].
  2:{ simpl. split; [done|]. exists [], (e :: l). rewrite app_nil_r.
      split_and!; [done | constructor | done |].
      destruct (decide (two_parts "=" e)); simpl; exists l;
        split_and!; (done || lia). }
  assert (∀ l1, (bound_pairs (e :: l1)).*2 = (parts "=" e).2 :: (bound_pairs l1).*2)
    as Hids.
  { intros l1. unfold bound_pairs. by rewrite filter_cons_True by done. }
  assert (stops_after i [e] l (Some (FetchingSecret (External "") (parts "=" e).2)))
    as Hstop1 by (by exists [], e).
  revert Hids Hstop1. generalize (parts "=" e). intros [name id] Hids Hstop1.
  simpl in *. rewrite recording_Get.
  destruct (@Get F fetcher s id) as [s' [val [err|]]]; simpl.
  { split; [done|]. exists [e], l. rewrite Hids.
    split_and!;
      [done | constructor; [by right | constructor] | done | exact Hstop1]. }
  destruct (Unmarshal_K8sSecret val K8sSecret_zero) as [secret [err|]]; simpl.
  { split; [done|]. exists [e], l. rewrite Hids.
    split_and!;
      [done | constructor; [by right | constructor] | done | exact Hstop1]. }
  destruct (IH s' (log ++ [id]) (S i) (<[name := secret]> m))
    as (Hsame & l1 & l2 & -> & Hb & Hlog & Hstop).
  split; [done|]. exists (e :: l1), l2.
  split_and!; [done | constructor; [by right | done] | | by apply stops_after_cons].
  by rewrite Hlog, Hids, <- app_assoc.
Qed.

(** X17: run [ProcessSecretInjections] with a fetcher that records the
    identifiers it is asked for.  The recording changes nothing: the
    fetcher underneath, the receiver and the error are those of the
    plain run.  The entries split in those the loop got through and the
    rest, and [Get] has been asked for the identifier of each non-empty
    entry it got through, in input order, once each, and for nothing
    else: with no error it got through all entries; with a fetch or
    decode error the last entry it got through is the one whose
    identifier the error names; with an error of the check it got
    through all entries before the one the error reports. *)
Theorem X17_ProcessSecretInjections_fetch_order
    (s : F) (log : list string) (injstr : string) (kc : K8sConfig) :
  let r := @ProcessSecretInjections _ _ (recording fetcher) (s, log) injstr kc in
  let p := @ProcessSecretInjections _ _ fetcher s injstr kc in
  (r.1.1.1 = p.1.1 ∧ r.1.2 = p.1.2 ∧ r.2 = p.2) ∧
  ∃ l1 l2,
    Split injstr "," = l1 ++ l2 ∧ Forall bindable l1 ∧
    r.1.1.2 = log ++ (bound_pairs l1).*2 ∧
    stops_after 0 l1 l2 r.2.
Proof.
  cbv zeta. rewrite !ProcessSecretInjections_unfold. simpl.
  destruct (SecretInjections_range_recording (Split injstr ",") s log 0 ∅)
    as ((H1 & H2 & H3) & l1 & l2 & Hs & Hb & Hlog & Hstop).
  split; [by rewrite H1, H2, H3|]. by exists l1, l2.
Qed.

End recording_facts.

(** ** The test of the package *)

(** X18: what [TestProcessLabels] checks, for any row that the table
    may hold: the subtest of a row passes exactly when the row expects
    an error if and only if some entry of its input does not split on
    [=] in two, and expects as result the non-nil map of the
    assignments of the entries before the first such entry.  The four
    rows of the table are such rows: the test passes. *)
Theorem X18_TestProcessLabels_passes (tc : config_test.test_case) :
  (config_test.run tc = None ↔
     config_test.expectedErr tc =
       bool_decide (¬ Forall (two_parts "=")
                        (Split (config_test.labelsStr tc) ",")) ∧
     config_test.expectedResult tc =
       Some (assign_all ∅
               (parts "=" <$> good_prefix (two_parts "=")
                                (Split (config_test.labelsStr tc) ",")))) ∧
  Forall (λ r, r.2 = None) config_test.TestProcessLabels ∧
  config_test.TestProcessLabels.*1 =
    ["single valid label"; "multiple valid labels"; "no label";
     "invalid labels"].
Proof.
  split; [|split; [|reflexivity]].
  - unfold config_test.run. rewrite ProcessLabels_unfold.
    cbn [fst snd Labels set_Labels]. rewrite Labels_range_prefix.
    assert ((Labels_range (config_test.labelsStr tc)
               (Split (config_test.labelsStr tc) ",") ∅).2 = None ↔
            Forall (two_parts "=") (Split (config_test.labelsStr tc) ","))
      as Herr.
    { destruct (first_failure (two_parts "=")
                  (Split (config_test.labelsStr tc) ","))
        as [Hall|(l1 & e & l2 & Hs & Hall & He)].
      - by rewrite Labels_range_two_parts.
      - rewrite Hs, Labels_range_first_malformed by done. simpl.
        split; [done|]. intros Hc. destruct He.
        rewrite Forall_forall in Hc. apply Hc. apply elem_of_app.
        right. by left. }
    unfold config_test.DeepEqual.
    set (r := (Labels_range (config_test.labelsStr tc)
                 (Split (config_test.labelsStr tc) ",") ∅).2) in *.
    clearbody r. destruct r as [err|].
    + rewrite (bool_decide_eq_true_2
                 (¬ Forall (two_parts "=") (Split (config_test.labelsStr tc) ",")))
        by (intros Hc; by apply Herr in Hc).
      destruct (config_test.expectedErr tc); simpl; [|intuition congruence].
      case_bool_decide as Hres; simpl; intuition congruence.
    + rewrite (bool_decide_eq_false_2
                 (¬ Forall (two_parts "=") (Split (config_test.labelsStr tc) ",")))
        by (intros Hc; apply Hc; by apply Herr).
      destruct (config_test.expectedErr tc); simpl; [intuition congruence|].
      case_bool_decide as Hres; simpl; intuition congruence.
  - unfold config_test.TestProcessLabels, config_test.tests.
    repeat constructor.
Qed.

(** ** [strings.Split], as the parsers rely on it *)

(** X19: for every string and separator byte, [Split] returns one more
    token than the string has separators, no token holds the
    separator, joining the tokens with the separator gives the string
    back, and splitting [s<sep>t] gives the tokens of [s] followed by
    those of [t]. *)
Theorem X19_Split_tokens (sep : ascii) (s t : string) :
  length (Split s sep) = Count s sep + 1 ∧
  Forall (free_of sep) (Split s sep) ∧
  Join (Split s sep) sep = s ∧
  Split (s +:+ String sep t) sep = Split s sep ++ Split t sep.
Proof.
  split_and!;
    [apply Split_length | apply Split_Forall_free | apply Join_Split
    | apply Split_app].
Qed.

(** ** The parsers compared *)

(** X20: like [ProcessGroupBindings], [ProcessSecretInjections] takes a
    comma at the end of the input for nothing: the fetcher, the
    receiver and the error are the same for [s,] as for [s]. *)
Theorem X20_ProcessSecretInjections_trailing_comma
    `{!Json} `{!SecretFetcher F} (sf : F) (injstr : string) (kc : K8sConfig) :
  ProcessSecretInjections sf (injstr +:+ ",") kc =
    ProcessSecretInjections sf injstr kc.
Proof.
  change (injstr +:+ ",") with (injstr +:+ String "," EmptyString).
  rewrite !ProcessSecretInjections_unfold, Split_app.
  rewrite SecretInjections_range_app.
  destruct (SecretInjections_range sf 0 (Split injstr ",") ∅)
    as [[sf' m'] [err|]]; [done|].
  rewrite Split_empty, SecretInjections_range_cons. by rewrite decide_True.
Qed.

(** X21: on an input without an empty entry [ProcessLabels] accepts
    whatever [ProcessGroupBindings] accepts, and the two leave the same
    map in their fields. *)
Theorem X21_ProcessLabels_accepts_bindings (s : string) (kc : K8sConfig) :
  (ProcessGroupBindings s kc).2 = None →
  EmptyString ∉ Split s "," →
  (ProcessLabels s kc).2 = None ∧
  Labels (ProcessLabels s kc).1 =
    GroupBindings (ProcessGroupBindings s kc).1.
Proof.
  rewrite ProcessGroupBindings_unfold, ProcessLabels_unfold. simpl.
  destruct (GroupBindings_range_prefix 0 (Split s ",") ∅) as [-> Hiff].
  intros Hall%Hiff Hno.
  assert (Forall (λ e, e ≠ EmptyString) (Split s ",")) as Hne.
  { apply Forall_forall. intros e He ->. by apply Hno. }
  assert (Forall (two_parts "=") (Split s ",")) as H2.
  { rewrite Forall_forall in *. intros e He.
    destruct (Hall e He) as [->|Hx]; [by destruct (Hne "" He)|].
    by apply two_nontrivial_two_parts. }
  rewrite Labels_range_two_parts by done. simpl.
  rewrite good_prefix_all by done. unfold bound_pairs.
  by rewrite filter_all.
Qed.

Lemma X21_ProcessLabels_accepts_bindings_witness :
  (ProcessLabels "g=r,h=s" K8sConfig_zero).2 = None ∧
  Labels (ProcessLabels "g=r,h=s" K8sConfig_zero).1 =
    GroupBindings (ProcessGroupBindings "g=r,h=s" K8sConfig_zero).1.
Proof.
  apply (X21_ProcessLabels_accepts_bindings "g=r,h=s" K8sConfig_zero).
  - reflexivity.
  - vm_compute. intros H. repeat (apply elem_of_cons in H as [H|H]; [discriminate|]).
    by apply elem_of_nil in H.
Defined.
